(** * attack-live-map: the enrichment and sync pipeline

    A shallow embedding of the two programs that produce event records:

    - [ec2내부파일/parser.py]: groups Cowrie honeypot log lines into sessions,
      classifies each session ([analyze_session]) and writes one event per
      session ([parse_cowrie_logs]);
    - [web/sync_daemon.py]: fetches the remote event list, fills in the
      location of the events that lack one through a memoised GeoIP lookup
      ([_get_location_for_ip]) and republishes the list as a local file
      ([_sync_once], [_loop]).

    Python values decoded from JSON are the inductive type [value]; a Python
    [dict] is an association list in insertion order. The module state of
    [sync_daemon.py] and the files it touches are one record threaded through
    a state-and-exception monad, together with the trace of the I/O that the
    code performs. *)

From Stdlib Require Import List String Ascii ZArith Bool Lia Arith Permutation.
From Stdlib Require Import Floats.SpecFloat.
Import ListNotations.

Local Open Scope string_scope.
Local Open Scope list_scope.

(** ** Python values *)

(** What [json.loads] can return: [None], [bool], [int], [float], [str],
    [list] and [dict]. A float is its IEEE 754 datum. *)
#[local] Unset Elimination Schemes.
Inductive value : Type :=
| VNone
| VBool (b : bool)
| VInt (z : Z)
| VFloat (f : spec_float)
| VStr (s : string)
| VList (l : list value)
| VDict (d : list (string * value)).
#[local] Set Elimination Schemes.

Definition pydict := list (string * value).

(** [bool(v)]: the truth value Python gives [v] in [if v] and [not v]. *)
Definition truthy (v : value) : bool :=
  match v with
  | VNone => false
  | VBool b => b
  | VInt z => negb (z =? 0)%Z
  | VFloat (S754_zero _) => false
  | VFloat _ => true
  | VStr s => negb (s =? "")
  | VList l => match l with [] => false | _ => true end
  | VDict d => match d with [] => false | _ => true end
  end.

(** [v is None] *)
Definition is_none (v : value) : bool :=
  match v with VNone => true | _ => false end.

(** [v == s] for a string literal [s]: only a [str] equals a [str]. *)
Definition eq_str (v : value) (s : string) : bool :=
  match v with VStr t => (t =? s) | _ => false end.

(** *** Dictionaries *)

(** Lookup of a key; [None] is Python's [KeyError]. *)
Fixpoint dict_lookup (k : string) (d : pydict) : option value :=
  match d with
  | [] => None
  | (k', v) :: d' => if (k' =? k) then Some v else dict_lookup k d'
  end.

(** [d.get(k)] *)
Definition dict_get (k : string) (d : pydict) : value :=
  match dict_lookup k d with Some v => v | None => VNone end.

(** [d.get(k, dflt)] *)
Definition dict_get_default (k : string) (dflt : value) (d : pydict) : value :=
  match dict_lookup k d with Some v => v | None => dflt end.

(** [d[k] = v]: the value of an existing key is replaced where it stands, a new
    key goes to the end. *)
Fixpoint dict_set (k : string) (v : value) (d : pydict) : pydict :=
  match d with
  | [] => [(k, v)]
  | (k', v') :: d' =>
      if (k' =? k) then (k', v) :: d' else (k', v') :: dict_set k v d'
  end.

(** [d.update(other)] *)
Definition dict_update (d other : pydict) : pydict :=
  fold_left (fun acc kv => dict_set (fst kv) (snd kv) acc) other d.

(** *** Strings *)

(** [sub in s] for two strings. *)
Fixpoint str_in (sub s : string) : bool :=
  if prefix sub s then true
  else match s with
       | EmptyString => false
       | String _ s' => str_in sub s'
       end.

(** [s.lower()] on ASCII text: the letters [A]-[Z] become [a]-[z], every other
    byte stays. *)
Definition ascii_lower (c : ascii) : ascii :=
  let n := nat_of_ascii c in
  if ((65 <=? n) && (n <=? 90))%nat then ascii_of_nat (n + 32) else c.

Fixpoint str_lower_ascii (s : string) : string :=
  match s with
  | EmptyString => EmptyString
  | String c s' => String (ascii_lower c) (str_lower_ascii s')
  end.

(** *** Text that can be written

    A [str] is the bytes of its UTF-8 form. [json.loads] also yields strings
    with a lone surrogate, from an escape such as [\ud800]; such a code point,
    U+D800 to U+DFFF, is here the three bytes that the UTF-8 scheme gives it:
    0xED, then a byte from 0xA0 to 0xBF, then one more. The strict [utf-8]
    codec refuses it with [UnicodeEncodeError]. *)
Fixpoint has_surrogate (s : string) : bool :=
  match s with
  | String c (String c' _ as rest) =>
      ((nat_of_ascii c =? 237) && (160 <=? nat_of_ascii c'))%nat
      || has_surrogate rest
  | _ => false
  end.

(** Every string in [v], keys included, can be encoded by the strict [utf-8]
    codec. *)
Fixpoint encodable (v : value) : bool :=
  match v with
  | VStr s => negb (has_surrogate s)
  | VList l => forallb encodable l
  | VDict d =>
      forallb (fun kv => negb (has_surrogate (fst kv)) && encodable (snd kv)) d
  | _ => true
  end.

(** *** Hashable values as keys

    The members of a [set] are compared through [hash] and [==]. Among
    decoded JSON values [None], booleans, numbers and strings are hashable,
    lists and dicts are not; [True == 1 == 1.0]. A number's key is its value
    [m * 2^e] with [m] odd, so that equal numbers have one key. *)
Inductive hkey : Type :=
| KNone
| KStr (s : string)
| KZero
| KNum (neg : bool) (m : positive) (e : Z)
| KInf (neg : bool)
| KNan.

Fixpoint odd_part (m : positive) (e : Z) : positive * Z :=
  match m with
  | xO m' => odd_part m' (e + 1)%Z
  | _ => (m, e)
  end.

Definition num_key (neg : bool) (m : positive) (e : Z) : hkey :=
  let (m', e') := odd_part m e in KNum neg m' e'.

Definition int_key (z : Z) : hkey :=
  match z with
  | Z0 => KZero
  | Zpos p => num_key false p 0
  | Zneg p => num_key true p 0
  end.

Definition float_key (f : spec_float) : hkey :=
  match f with
  | S754_zero _ => KZero
  | S754_infinity s => KInf s
  | S754_nan => KNan
  | S754_finite s m e => num_key s m e
  end.

(** [None] when [hash(v)] raises [TypeError]. *)
Definition hash_key (v : value) : option hkey :=
  match v with
  | VNone => Some KNone
  | VBool b => Some (int_key (if b then 1 else 0))
  | VInt z => Some (int_key z)
  | VFloat f => Some (float_key f)
  | VStr s => Some (KStr s)
  | VList _ => None
  | VDict _ => None
  end.

(** The key under which [lru_cache] files a call with the one argument [v]:
    an [int] or a [str] is the key itself, any other argument is wrapped in a
    tuple, so that [1] and [1.0] are filed apart while [1.0] and [True] are
    not. *)
Inductive cache_key : Type :=
| Bare (k : hkey)
| Wrapped (k : hkey).

Definition make_key (v : value) : option cache_key :=
  match v with
  | VInt _ | VStr _ => option_map Bare (hash_key v)
  | _ => option_map Wrapped (hash_key v)
  end.

Definition hkey_eqb (a b : hkey) : bool :=
  match a, b with
  | KNone, KNone => true
  | KStr s, KStr t => (s =? t)
  | KZero, KZero => true
  | KNum n m e, KNum n' m' e' =>
      Bool.eqb n n' && (m =? m')%positive && (e =? e')%Z
  | KInf n, KInf n' => Bool.eqb n n'
  | KNan, KNan => true
  | _, _ => false
  end.

Definition cache_key_eqb (a b : cache_key) : bool :=
  match a, b with
  | Bare k, Bare k' => hkey_eqb k k'
  | Wrapped k, Wrapped k' => hkey_eqb k k'
  | _, _ => false
  end.

(** ** The session classifier: [parser.py] *)

Module Parser.

(** One Cowrie log line, decoded. The fields the code treats as text (it
    groups by [session], sorts by [timestamp], lower-cases [input]) are strings
    as Cowrie writes them, [None] when the key is absent. The fields that are
    only compared or copied are any value, [VNone] when the key is absent
    ([log.get(k)] does not tell an absent key from a null). *)
Record LogEntry : Type := {
  session : option string;
  eventid : value;
  timestamp : option string;
  input : option string;
  src_ip : value;
  dst_port : value;
  protocol : value
}.

(** [get_geoip_data]: the placeholder lookup. *)
Definition get_geoip_data (ip_address : value) : pydict :=
  [("lat", VNone); ("lon", VNone); ("country", VStr "N/A")].

Section Classifier.

(** [str.lower] of the Python runtime. *)
Variable lower : string -> string.

(** [log.get("input", "")] *)
Definition input_text (log : LogEntry) : string :=
  match input log with Some s => s | None => "" end.

(** The first loop of [analyze_session]: it collects the lower-cased commands
    and the two login flags. *)
Fixpoint scan_session (session_logs : list LogEntry) (commands : list string)
    (has_successful_login has_failed_login : bool) : list string * bool * bool :=
  match session_logs with
  | [] => (commands, has_successful_login, has_failed_login)
  | log :: rest =>
      let event_id := eventid log in
      if eq_str event_id "cowrie.login.success" then
        scan_session rest commands true has_failed_login
      else if eq_str event_id "cowrie.login.failed" then
        scan_session rest commands has_successful_login true
      else if eq_str event_id "cowrie.command.input" then
        scan_session rest (commands ++ [lower (input_text log)])
          has_successful_login has_failed_login
      else
        scan_session rest commands has_successful_login has_failed_login
  end.

(** The loop over [commands]: the first command that carries a signature
    returns; [None] when the loop runs to its end. *)
Fixpoint check_commands (commands : list string) : option (string * Z) :=
  match commands with
  | [] => None
  | cmd :: rest =>
      if str_in "miner" cmd then Some ("cryptominer-check", 4%Z)
      else if str_in "/ip cloud print" cmd then Some ("mikrotik-recon", 3%Z)
      else if str_in "telegramdesktop" cmd || str_in "smsd" cmd
           then Some ("info-gathering", 3%Z)
      else check_commands rest
  end.

Definition analyze_session (session_logs : list LogEntry) : string * Z :=
  let '(commands, has_successful_login, has_failed_login) :=
    scan_session session_logs [] false false in
  if has_successful_login then
    match check_commands commands with
    | Some r => r
    | None => ("reconnaissance", 2%Z)
    end
  else if has_failed_login then ("brute-force", 2%Z)
  else ("scan", 1%Z).

(** What the classifier looks at, named: the entries of a kind, the commands
    of a session in order, and the four signatures. *)
Definition is_event (name : string) (log : LogEntry) : bool :=
  eq_str (eventid log) name.

Definition has_event (name : string) (logs : list LogEntry) : bool :=
  existsb (is_event name) logs.

Definition command_text (log : LogEntry) : string := lower (input_text log).

Definition commands_of (logs : list LogEntry) : list string :=
  map command_text (filter (is_event "cowrie.command.input") logs).

Definition has_signature (cmd : string) : bool :=
  str_in "miner" cmd || str_in "/ip cloud print" cmd
  || str_in "telegramdesktop" cmd || str_in "smsd" cmd.

(** *** [parse_cowrie_logs] *)

(** [str(uuid.uuid4())]: the identifier drawn at the n-th call. *)
Variable uuid4 : nat -> string.

(** [sessions[session_id].append(log)] on the [defaultdict(list)]. *)
Fixpoint sessions_append (session_id : string) (log : LogEntry)
    (sessions : list (string * list LogEntry)) : list (string * list LogEntry) :=
  match sessions with
  | [] => [(session_id, [log])]
  | (k, logs) :: rest =>
      if (k =? session_id) then (k, logs ++ [log]) :: rest
      else (k, logs) :: sessions_append session_id log rest
  end.

(** Step 1. A line is [None] when [json.loads] raises [JSONDecodeError]: it is
    skipped. A line without a session id, or with an empty one, is skipped. *)
Fixpoint group_lines (lines : list (option LogEntry))
    (sessions : list (string * list LogEntry)) : list (string * list LogEntry) :=
  match lines with
  | [] => sessions
  | None :: rest => group_lines rest sessions
  | Some log :: rest =>
      match session log with
      | Some session_id =>
          if negb (session_id =? "")
          then group_lines rest (sessions_append session_id log sessions)
          else group_lines rest sessions
      | None => group_lines rest sessions
      end
  end.

(** [x.get("timestamp", "")] *)
Definition sort_key (x : LogEntry) : string :=
  match timestamp x with Some t => t | None => "" end.

(** [logs.sort(key=...)]: a stable sort, ascending in the key. *)
Fixpoint insert_log (x : LogEntry) (l : list LogEntry) : list LogEntry :=
  match l with
  | [] => [x]
  | y :: l' =>
      if (sort_key x <=? sort_key y) then x :: y :: l' else y :: insert_log x l'
  end.

Fixpoint sort_logs (l : list LogEntry) : list LogEntry :=
  match l with
  | [] => []
  | x :: l' => insert_log x (sort_logs l')
  end.

(** [x] is no later than any entry of [l]. *)
Definition earliest (x : LogEntry) (l : list LogEntry) : Prop :=
  forall y, In y l -> (sort_key x <=? sort_key y) = true.

Definition opt_str (o : option string) : value :=
  match o with Some s => VStr s | None => VNone end.

(** Step 4: the event of a session whose first entry is [first_log]. *)
Definition make_event (id : string) (first_log : LogEntry)
    (label : string) (severity : Z) : pydict :=
  let src_ip := src_ip first_log in
  let geoip_data := get_geoip_data src_ip in
  [ ("id", VStr id);
    ("ts", opt_str (timestamp first_log));
    ("src_ip", src_ip);
    ("lat", dict_get "lat" geoip_data);
    ("lon", dict_get "lon" geoip_data);
    ("country", dict_get "country" geoip_data);
    ("port", dst_port first_log);
    ("proto", if eq_str (protocol first_log) "ssh" then VStr "tcp"
              else protocol first_log);
    ("label", VStr label);
    ("severity", VInt severity) ].

(** The body of the loop of step 2, on one session. *)
Definition process_session (output_events : list pydict)
    (entry : string * list LogEntry) : list pydict :=
  let logs := snd entry in
  match logs with
  | [] => output_events
  | _ =>
      let logs := sort_logs logs in
      match logs with
      | [] => output_events
      | first_log :: _ =>
          if negb (eq_str (eventid first_log) "cowrie.session.connect")
          then output_events
          else
            let '(label, severity) := analyze_session logs in
            output_events ++
              [make_event (uuid4 (List.length output_events)) first_log label severity]
      end
  end.

Definition process_sessions (sessions : list (string * list LogEntry))
    : list pydict :=
  fold_left process_session sessions [].

(** [input_file] is [None] when the file does not exist: the function returns
    without writing. Otherwise the result is the list that is dumped to
    [output_file]. *)
Definition parse_cowrie_logs (input_file : option (list (option LogEntry)))
    : option (list pydict) :=
  match input_file with
  | None => None
  | Some lines => Some (process_sessions (group_lines lines []))
  end.

End Classifier.

(** *** Names for the statements about sessions *)

(** The entries [analyze_session] reacts to: the two logins and the typed
    commands. *)
Definition classifier_event (log : LogEntry) : bool :=
  is_event "cowrie.login.success" log
  || is_event "cowrie.login.failed" log
  || is_event "cowrie.command.input" log.

(** The six results [analyze_session] can return. *)
Definition outcomes : list (string * Z) :=
  [ ("scan", 1%Z); ("brute-force", 2%Z); ("reconnaissance", 2%Z);
    ("cryptominer-check", 4%Z); ("mikrotik-recon", 3%Z);
    ("info-gathering", 3%Z) ].

(** [sessions.get(session_id)] on the grouped sessions. *)
Fixpoint sessions_lookup (session_id : string)
    (sessions : list (string * list LogEntry)) : option (list LogEntry) :=
  match sessions with
  | [] => None
  | (k, logs) :: rest =>
      if (k =? session_id) then Some logs else sessions_lookup session_id rest
  end.

(** The decoded lines that carry the session id, in the order of the file. *)
Fixpoint lines_of_session (session_id : string) (lines : list (option LogEntry))
    : list LogEntry :=
  match lines with
  | [] => []
  | Some log :: rest =>
      match session log with
      | Some k =>
          if (k =? session_id) then log :: lines_of_session session_id rest
          else lines_of_session session_id rest
      | None => lines_of_session session_id rest
      end
  | None :: rest => lines_of_session session_id rest
  end.

(** Distinct non-empty ids, no empty session. *)
Definition sessions_wf (sessions : list (string * list LogEntry)) : Prop :=
  NoDup (map fst sessions) /\
  Forall (fun entry => fst entry <> "" /\ snd entry <> []) sessions.

(** How many members of [l] satisfy [f]. *)
Definition count_if {A : Type} (f : A -> bool) (l : list A) : nat :=
  List.length (filter f l).

(** The session passes the gate of step 2: it has entries and the earliest is
    a connect event. *)
Definition starts_with_connect (logs : list LogEntry) : bool :=
  match sort_logs logs with
  | [] => false
  | first_log :: _ => eq_str (eventid first_log) "cowrie.session.connect"
  end.

(** Ascending in the timestamp key. *)
Fixpoint ascending (l : list LogEntry) : Prop :=
  match l with
  | [] => True
  | x :: rest => earliest x rest /\ ascending rest
  end.

(** The entries of [l] whose timestamp key is [k], in their order in [l]. *)
Definition with_key (k : string) (l : list LogEntry) : list LogEntry :=
  filter (fun x => (sort_key x =? k)) l.

End Parser.

(** ** The sync daemon: [web/sync_daemon.py] *)

Module SyncDaemon.

(** The exceptions the modelled code can raise. *)
Inductive exn : Type :=
| AttributeError
| TypeError
| UnicodeEncodeError.

(** [reader.get(ip)] of an open [maxminddb] database: it raises, or returns the
    record of the address ([VNone] when there is none). *)
Inductive lookup : Type :=
| LookupRaises
| LookupReturns (m : value).

Definition reader : Type := value -> lookup.

(** What is on disk at [_GEOIP_DB_PATH]: nothing, a file that
    [maxminddb.open_database] rejects with [InvalidDatabaseError], or a
    database. A file that cannot be read at all is outside the model. *)
Inductive db_file : Type :=
| Absent
| Malformed
| Valid (r : reader).

(** The lines the module prints. *)
Inductive message : Type :=
| MsgDbNotFound
| MsgDbLoaded
| MsgDbInvalid
| MsgIpError
| MsgS3Error
| MsgJsonError
| MsgOtherError
| MsgLookup (n : nat)
| MsgSyncDone (filled_count : Z)
| MsgLoopError
| MsgStart
| MsgStop.

(** What the module prints, its accesses to the database file and to the open
    database, its writes of the local file and its waits, in the order they
    happen. The S3 request is the input of [_read_s3_json] below. *)
Inductive io : Type :=
| Print (m : message)
| PathExists (path : string)
| OpenDatabase (path : string)
| ReaderGet (ip : value)
| AtomicWrite (path : string) (data : value)
| Wait (seconds : Z).

(** What a file holds: some text, or the text that
    [json.dump(data, f, ensure_ascii=False, indent=2)] writes for [data]. *)
Inductive file_content : Type :=
| Text (s : string)
| JsonDump (data : value).

(** The module globals [_geoip_reader] and the cache that [lru_cache] keeps for
    [_get_location_for_ip] (most recently used first), the two files, and the
    trace. Locks do nothing in this sequential model. *)
Record state : Type := {
  _geoip_reader : option reader;
  cache : list (cache_key * option pydict);
  geoip_db : db_file;
  local_events : option file_content;
  trace : list io
}.

Definition initial (db : db_file) (file : option file_content) : state :=
  {| _geoip_reader := None; cache := []; geoip_db := db;
     local_events := file; trace := [] |}.

(** *** State and exceptions *)

Inductive result (A : Type) : Type :=
| Ok (a : A)
| Raise (e : exn).
Arguments Ok {A} a.
Arguments Raise {A} e.

Definition M (A : Type) : Type := state -> result A * state.

Definition ret {A} (a : A) : M A := fun st => (Ok a, st).

Definition raise {A} (e : exn) : M A := fun st => (Raise e, st).

Definition bind {A B} (c : M A) (k : A -> M B) : M B :=
  fun st =>
    match c st with
    | (Ok a, st') => k a st'
    | (Raise e, st') => (Raise e, st')
    end.

Notation "x <- c ;; k" := (bind c (fun x => k))
  (at level 61, c at next level, right associativity).
Notation "c ;;; k" := (bind c (fun _ => k))
  (at level 61, right associativity).

Definition emit (e : io) : M unit :=
  fun st =>
    (Ok tt, {| _geoip_reader := _geoip_reader st; cache := cache st;
               geoip_db := geoip_db st; local_events := local_events st;
               trace := trace st ++ [e] |}).

Definition set_reader (r : option reader) : M unit :=
  fun st =>
    (Ok tt, {| _geoip_reader := r; cache := cache st;
               geoip_db := geoip_db st; local_events := local_events st;
               trace := trace st |}).

Definition set_cache (c : list (cache_key * option pydict)) : M unit :=
  fun st =>
    (Ok tt, {| _geoip_reader := _geoip_reader st; cache := c;
               geoip_db := geoip_db st; local_events := local_events st;
               trace := trace st |}).

Definition set_local_events (content : file_content) : M unit :=
  fun st =>
    (Ok tt, {| _geoip_reader := _geoip_reader st; cache := cache st;
               geoip_db := geoip_db st; local_events := Some content;
               trace := trace st |}).

(** The cache of [functools.lru_cache(maxsize=4096)]. *)
Definition maxsize : nat := 4096.

Fixpoint cache_find (k : cache_key) (c : list (cache_key * option pydict))
    : option (option pydict) :=
  match c with
  | [] => None
  | (k', v) :: c' => if cache_key_eqb k' k then Some v else cache_find k c'
  end.

Fixpoint cache_remove (k : cache_key) (c : list (cache_key * option pydict))
    : list (cache_key * option pydict) :=
  match c with
  | [] => []
  | (k', v) :: c' =>
      if cache_key_eqb k' k then cache_remove k c'
      else (k', v) :: cache_remove k c'
  end.

(** [v.get(k, dflt)]; [None] is the [AttributeError] of a [v] that is no
    dict. *)
Definition py_get (k : string) (dflt : value) (v : value) : option value :=
  match v with
  | VDict d => Some (dict_get_default k dflt d)
  | _ => None
  end.

Definition opt_bind {A B} (o : option A) (f : A -> option B) : option B :=
  match o with Some a => f a | None => None end.

(** The dict literal built from a database record; [None] when one of the
    chained [.get] calls raises. *)
Definition location_of_match (m : value) : option pydict :=
  opt_bind (opt_bind (py_get "location" (VDict []) m) (py_get "latitude" VNone))
    (fun lat =>
  opt_bind (opt_bind (py_get "location" (VDict []) m) (py_get "longitude" VNone))
    (fun lon =>
  opt_bind (opt_bind (opt_bind (py_get "country" (VDict []) m)
                        (py_get "names" (VDict [])))
              (py_get "en" (VStr "Unknown")))
    (fun country =>
  Some [("lat", lat); ("lon", lon); ("country", country)]))).

Definition unknown_country : pydict := [("country", VStr "Unknown")].

Section Daemon.

(** Configuration read from the environment when the module is loaded. *)
Variable _GEOIP_DB_PATH : option string.
Variable _LOCAL_PATH : string.
Variable _INTERVAL_S : Z.

(** The order in which a [for] loop visits a [set] built by inserting the
    given members in turn. Python leaves it unspecified. *)
Variable set_order : list value -> list value.

Definition _get_geoip_reader : M (option reader) :=
  fun st =>
    match _geoip_reader st with
    | Some r => ret (Some r) st
    | None =>
        match _GEOIP_DB_PATH with
        | None => (emit (Print MsgDbNotFound) ;;; ret None) st
        | Some path =>
            if (path =? "") then (emit (Print MsgDbNotFound) ;;; ret None) st
            else
              (emit (PathExists path) ;;;
               match geoip_db st with
               | Absent => emit (Print MsgDbNotFound) ;;; ret None
               | Malformed =>
                   emit (OpenDatabase path) ;;;
                   emit (Print MsgDbInvalid) ;;; ret None
               | Valid r =>
                   emit (OpenDatabase path) ;;;
                   set_reader (Some r) ;;;
                   emit (Print MsgDbLoaded) ;;; ret (Some r)
               end) st
        end
    end.

(** The body of [_get_location_for_ip], under the decorator. *)
Definition locate (ip : value) : M (option pydict) :=
  reader <- _get_geoip_reader ;;
  match reader with
  | None => ret None
  | Some r =>
      if negb (truthy ip) then ret None
      else
        emit (ReaderGet ip) ;;;
        match r ip with
        | LookupReturns m =>
            if truthy m then
              match location_of_match m with
              | Some d => ret (Some d)
              | None => emit (Print MsgIpError) ;;; ret (Some unknown_country)
              end
            else ret (Some unknown_country)
        | LookupRaises => emit (Print MsgIpError) ;;; ret (Some unknown_country)
        end
  end.

(** [_get_location_for_ip] as [lru_cache] wraps it: an argument that cannot be
    hashed raises; a cached argument returns its cached result and becomes the
    most recently used; otherwise the body runs and its result is stored, the
    least recently used entry leaving a full cache. *)
Definition _get_location_for_ip (ip : value) : M (option pydict) :=
  match make_key ip with
  | None => raise TypeError
  | Some k =>
      fun st =>
        match cache_find k (cache st) with
        | Some v =>
            (set_cache ((k, v) :: cache_remove k (cache st)) ;;; ret v) st
        | None =>
            (v <- locate ip ;;
             (fun st' =>
                (set_cache (firstn maxsize ((k, v) :: cache st')) ;;; ret v) st'))
              st
        end
  end.

(** [_fill_location_info]: the event dict is updated in place; the model
    returns the updated dict. *)
Definition _fill_location_info (event : pydict) : M pydict :=
  let src_ip := dict_get "src_ip" event in
  if truthy src_ip then
    location_data <- _get_location_for_ip src_ip ;;
    match location_data with
    | Some (kv :: d) => ret (dict_update event (kv :: d))
    | _ => ret (dict_set "country" (VStr "Unknown") event)
    end
  else ret event.

(** What the S3 request and the decoding of its body come to. *)
Inductive s3_response : Type :=
| S3ClientError
| S3JSONDecodeError
| S3OtherError
| S3Json (v : value).

Definition _read_s3_json (resp : s3_response) : M value :=
  match resp with
  | S3Json v => ret v
  | S3ClientError => emit (Print MsgS3Error) ;;; ret VNone
  | S3JSONDecodeError => emit (Print MsgJsonError) ;;; ret VNone
  | S3OtherError => emit (Print MsgOtherError) ;;; ret VNone
  end.

(** [_atomic_write_json]: the text goes to a temporary file that is then moved
    over [path]. The file is opened with [encoding="utf-8"] and the text is
    dumped with [ensure_ascii=False], so that a string that the codec refuses
    makes the dump raise: the temporary file is removed and [path] is left as
    it was. A disk that refuses the write is outside the model. *)
Definition _atomic_write_json (path : string) (data : value) : M unit :=
  if encodable data then
    emit (AtomicWrite path data) ;;;
    set_local_events (JsonDump data)
  else raise UnicodeEncodeError.

(** The test both passes of [_sync_once] apply to an item. *)
Definition lacks_location (item : pydict) : bool :=
  truthy (dict_get "src_ip" item)
  && (is_none (dict_get "lat" item)
      || (eq_str (dict_get "country" item) "N/A"
          || is_none (dict_get "country" item))).

Fixpoint in_keys (k : hkey) (members : list value) : bool :=
  match members with
  | [] => false
  | v :: rest =>
      match hash_key v with
      | Some k' => hkey_eqb k' k || in_keys k rest
      | None => in_keys k rest
      end
  end.

(** The set comprehension: the members in the order of their first insertion.
    [item.get] raises on an item that is no dict, adding an unhashable
    [src_ip] raises. *)
Fixpoint unique_ips (items : list value) (members : list value)
    : result (list value) :=
  match items with
  | [] => Ok members
  | VDict item :: rest =>
      if lacks_location item then
        let ip := dict_get "src_ip" item in
        match hash_key ip with
        | None => Raise TypeError
        | Some k =>
            if in_keys k members then unique_ips rest members
            else unique_ips rest (members ++ [ip])
        end
      else unique_ips rest members
  | _ :: _ => Raise AttributeError
  end.

Fixpoint lookup_all (ips : list value) : M unit :=
  match ips with
  | [] => ret tt
  | ip :: rest => _get_location_for_ip ip ;;; lookup_all rest
  end.

(** The third step: the loop that fills the items and counts them. *)
Fixpoint fill_all (items : list value) (filled_count : Z)
    : M (list value * Z) :=
  match items with
  | [] => ret ([], filled_count)
  | VDict item :: rest =>
      if lacks_location item then
        item' <- _fill_location_info item ;;
        r <- fill_all rest (filled_count + 1)%Z ;;
        ret (VDict item' :: fst r, snd r)
      else
        r <- fill_all rest filled_count ;;
        ret (VDict item :: fst r, snd r)
  | _ :: _ => raise AttributeError
  end.

Definition _sync_once (resp : s3_response) : M Z :=
  s3_data <- _read_s3_json resp ;;
  if is_none s3_data then ret 0%Z
  else
    let s3_list :=
      match s3_data with
      | VList l => l
      | VDict _ => [s3_data]
      | _ => []
      end in
    match s3_list with
    | [] => ret 0%Z
    | _ :: _ =>
        unique_ips_to_find <-
          (fun st => (unique_ips s3_list [], st)) ;;
        match unique_ips_to_find with
        | [] => ret tt
        | _ :: _ =>
            emit (Print (MsgLookup (List.length unique_ips_to_find))) ;;;
            lookup_all (set_order unique_ips_to_find)
        end ;;;
        r <- fill_all s3_list 0%Z ;;
        _atomic_write_json _LOCAL_PATH (VList (fst r)) ;;;
        ret (snd r)
    end.

(** One turn of the [while] loop of [_loop]. *)
Definition loop_iteration (resp : s3_response) : M unit :=
  (fun st =>
     match _sync_once resp st with
     | (Ok filled_count, st') => emit (Print (MsgSyncDone filled_count)) st'
     | (Raise _, st') => emit (Print MsgLoopError) st'
     end) ;;;
  emit (Wait _INTERVAL_S).

(** [_loop], given what each turn fetches and whether the stop flag is set
    when its wait returns. *)
Fixpoint loop_turns (schedule : list (s3_response * bool)) : M unit :=
  match schedule with
  | [] => ret tt
  | (resp, stopped) :: rest =>
      loop_iteration resp ;;;
      if stopped then emit (Print MsgStop) else loop_turns rest
  end.

Definition _loop (stop_is_set : bool) (schedule : list (s3_response * bool))
    : M unit :=
  emit (Print MsgStart) ;;;
  if stop_is_set then emit (Print MsgStop) else loop_turns schedule.

End Daemon.

(** *** What the statements below talk about *)

(** The database cannot be opened: no path is configured, or the file at the
    path is missing or is not a database. *)
Definition path_unset (path : option string) : bool :=
  match path with
  | None => true
  | Some p => (p =? "")
  end.

Definition db_unavailable (path : option string) (db : db_file) : bool :=
  path_unset path
  || match db with
     | Absent => true
     | Malformed => true
     | Valid _ => false
     end.

(** The I/O of one failed attempt to get a reader. *)
Definition failed_open_trace (path : option string) (db : db_file) : list io :=
  match path with
  | None => [Print MsgDbNotFound]
  | Some p =>
      if (p =? "") then [Print MsgDbNotFound]
      else
        match db with
        | Absent => [PathExists p; Print MsgDbNotFound]
        | Malformed => [PathExists p; OpenDatabase p; Print MsgDbInvalid]
        | Valid _ => []
        end
  end.

(** The accesses to the database file, and the queries to an open database,
    in a trace. *)
Definition is_probe (e : io) : bool :=
  match e with
  | PathExists _ => true
  | OpenDatabase _ => true
  | _ => false
  end.

Definition is_query (e : io) : bool :=
  match e with
  | ReaderGet _ => true
  | _ => false
  end.

Definition probes (t : list io) : nat := List.length (filter is_probe t).
Definition queries (t : list io) : nat := List.length (filter is_query t).

Definition fetch_failed (resp : s3_response) : bool :=
  match resp with
  | S3Json _ => false
  | _ => true
  end.

Definition failure_message (resp : s3_response) : message :=
  match resp with
  | S3ClientError => MsgS3Error
  | S3JSONDecodeError => MsgJsonError
  | _ => MsgOtherError
  end.

Definition is_container (v : value) : bool :=
  match v with
  | VList _ => true
  | VDict _ => true
  | _ => false
  end.

Definition hashable (v : value) : bool :=
  match hash_key v with Some _ => true | None => false end.

(** A record the two passes of [_sync_once] go through without raising: a dict
    whose [src_ip], when it is looked up, can be hashed. *)
Definition record_ok (item : value) : bool :=
  match item with
  | VDict d => negb (truthy (dict_get "src_ip" d)) || hashable (dict_get "src_ip" d)
  | _ => false
  end.

(** What the fill pass does to a record when no lookup yields a location. *)
Definition mark_unknown (item : value) : value :=
  match item with
  | VDict d =>
      if lacks_location d then VDict (dict_set "country" (VStr "Unknown") d)
      else item
  | _ => item
  end.

Definition count_lacking (items : list value) : Z :=
  Z.of_nat (List.length
              (filter (fun item => match item with
                                   | VDict d => lacks_location d
                                   | _ => false
                                   end) items)).

(** [item.get(k)] on a record. *)
Definition field (k : string) (item : value) : value :=
  match item with
  | VDict d => dict_get k d
  | _ => VNone
  end.

Definition populated (k : string) (event : pydict) : bool :=
  negb (is_none (dict_get k event)).

(** The three geographic fields are all populated or all absent. *)
Definition geo_all_or_none (event : pydict) : bool :=
  (populated "lat" event && populated "lon" event && populated "country" event)
  || (negb (populated "lat" event) && negb (populated "lon" event)
      && negb (populated "country" event)).

Definition geo_keys : list string := ["lat"; "lon"; "country"].

(** Every cached location has the three geographic keys only. *)
Definition location_ok (v : option pydict) : Prop :=
  match v with
  | None => True
  | Some d => Forall (fun kv => In (fst kv) geo_keys) d
  end.

Definition cache_ok (st : state) : Prop :=
  Forall (fun kv => location_ok (snd kv)) (cache st).

(** The state of a process that has found no database so far: no reader, and
    nothing but unknown results in the cache. *)
Definition degraded (path : option string) (st : state) : Prop :=
  _geoip_reader st = None /\
  db_unavailable path (geoip_db st) = true /\
  Forall (fun kv => snd kv = None) (cache st).

(** *** Names for the statements about lookups and turns *)

(** A record on which the set comprehension of [_sync_once] raises: it is no
    dict, or it lacks a location and its [src_ip] cannot be hashed. *)
Definition record_bad (item : value) : bool :=
  match item with
  | VDict d => lacks_location d && negb (hashable (dict_get "src_ip" d))
  | _ => true
  end.

(** The record is one that both passes of [_sync_once] fill. *)
Definition lacking (item : value) : bool :=
  match item with
  | VDict d => lacks_location d
  | _ => false
  end.

Definition is_open (e : io) : bool :=
  match e with
  | OpenDatabase _ => true
  | _ => false
  end.

Definition is_wait (e : io) : bool :=
  match e with
  | Wait _ => true
  | _ => false
  end.

Definition is_write (e : io) : bool :=
  match e with
  | AtomicWrite _ _ => true
  | _ => false
  end.

Definition opens (t : list io) : nat := List.length (filter is_open t).
Definition waits (t : list io) : nat := List.length (filter is_wait t).
Definition writes (t : list io) : nat := List.length (filter is_write t).

(** The cache holds at most [maxsize] entries, under distinct keys. *)
Definition cache_bounded (st : state) : Prop :=
  (List.length (cache st) <= maxsize)%nat /\ NoDup (map fst (cache st)).


(** What publishing may change in a fetched record: none of the fields other
    than latitude, longitude and country, and nothing at all in a record that
    does not lack a location. *)
Definition enriched_from (fetched published : value) : Prop :=
  (forall k, ~ In k geo_keys -> field k published = field k fetched) /\
  (lacking fetched = false -> published = fetched).

(** A record whose [src_ip] is a string, or is missing or null. *)
Definition string_record (item : value) : bool :=
  match item with
  | VDict d =>
      match dict_get "src_ip" d with
      | VStr _ => true
      | VNone => true
      | _ => false
      end
  | _ => false
  end.

(** The cache keys of the addresses that can be hashed. *)
Definition keys_of (ips : list value) : list cache_key :=
  flat_map (fun ip => match make_key ip with Some k => [k] | None => [] end) ips.

(** The keys of [K] are the most recently used ones of the cache. *)
Definition covers (K : list cache_key) (c : list (cache_key * option pydict))
    : Prop :=
  forall k, In k K -> In k (map fst (firstn (List.length K) c)).

(** The turns [_loop] runs on a schedule: up to and including the first one
    whose wait ends with the stop flag set. *)
Fixpoint turns_run (schedule : list (s3_response * bool)) : nat :=
  match schedule with
  | [] => 0
  | (_, stopped) :: rest => S (if stopped then 0 else turns_run rest)
  end.

End SyncDaemon.

(** ** Starting and stopping the daemon: [start_sync_daemon],
    [stop_sync_daemon] *)

Module Control.

Import SyncDaemon.

(** What the two functions do to threads and to the reader. A thread is named
    by the number of threads started before it. *)
Inductive event : Type :=
| ThreadStart (n : nat)
| ThreadJoin (n : nat) (timeout : Z)
| ReaderClose.

(** The module globals [_started], [_thread] and [_stop_flag], the number of
    threads started so far, the state of the lookups and files, and what was
    done to threads and reader. The thread that runs [_loop] is not run here:
    the model follows the caller of the two functions. *)
Record process : Type := {
  _started : bool;
  _thread : option nat;
  _stop_flag : bool;
  threads : nat;
  mem : state;
  log : list event
}.

(** Both tests of [_started], outside and under the lock, see the same flag
    when one caller runs. *)
Definition start_sync_daemon (p : process) : process :=
  if _started p then p
  else
    {| _started := true;
       _thread := Some (threads p);
       _stop_flag := false;
       threads := S (threads p);
       mem := mem p;
       log := log p ++ [ThreadStart (threads p)] |}.

(** [_geoip_reader.close(); _geoip_reader = None] on the state of the
    lookups. *)
Definition drop_reader (st : state) : state :=
  {| _geoip_reader := None; cache := cache st; geoip_db := geoip_db st;
     local_events := local_events st; trace := trace st |}.

Definition stop_sync_daemon (p : process) : process :=
  if negb (_started p) then p
  else
    let joined :=
      match _thread p with
      | Some n => log p ++ [ThreadJoin n 2]
      | None => log p
      end in
    match _geoip_reader (mem p) with
    | Some _ =>
        {| _started := false; _thread := None; _stop_flag := true;
           threads := threads p; mem := drop_reader (mem p);
           log := joined ++ [ReaderClose] |}
    | None =>
        {| _started := false; _thread := None; _stop_flag := true;
           threads := threads p; mem := mem p; log := joined |}
    end.

(** The process when the module has just been imported. *)
Definition fresh (st : state) : process :=
  {| _started := false; _thread := None; _stop_flag := false; threads := 0;
     mem := st; log := [] |}.

Definition is_start (e : event) : bool :=
  match e with
  | ThreadStart _ => true
  | _ => false
  end.

Definition starts (l : list event) : nat := List.length (filter is_start l).

(** The two calls a caller can make. *)
Inductive call : Type :=
| Start
| Stop.

Definition perform (p : process) (c : call) : process :=
  match c with
  | Start => start_sync_daemon p
  | Stop => stop_sync_daemon p
  end.

(** The threads that were started and not joined since. *)
Fixpoint unjoined (l : list event) (running : list nat) : list nat :=
  match l with
  | [] => running
  | ThreadStart n :: rest => unjoined rest (running ++ [n])
  | ThreadJoin n _ :: rest =>
      unjoined rest (filter (fun m => negb (m =? n)%nat) running)
  | ReaderClose :: rest => unjoined rest running
  end.

(** The bookkeeping of a process: started with the one thread that is not
    joined, or not started with none. *)
Definition one_thread (p : process) : Prop :=
  match _thread p with
  | Some n => _started p = true /\ unjoined (log p) [] = [n]
  | None => _started p = false /\ unjoined (log p) [] = []
  end.

End Control.

(** ** Flags: [utils.py] *)

Module Utils.

(** A Python [str] as the list of its code points. *)
Definition pystr : Type := list Z.

(** The white flag returned for what is not a country code: U+1F3F3
    U+FE0F. *)
Definition white_flag : pystr := [127987; 65039]%Z.

(** U+1F1E6, the regional indicator symbol letter A. *)
Definition base : Z := 127462.

Inductive flag : Type :=
| Flag (s : pystr)
| FlagTypeError.

Section Flags.

(** [c.upper()] for a string of the one character [c]; some characters have
    an upper case of several characters. *)
Variable upper : Z -> pystr.

(** [country_code] is [None] when the argument is no [str]. [ord] raises
    [TypeError] on a string that is not one character long. *)
Definition get_flag_emoji (country_code : option pystr) : flag :=
  match country_code with
  | Some [c0; c1] =>
      match upper c0 with
      | [first] =>
          match upper c1 with
          | [second] =>
              if negb ((65 <=? first) && (first <=? 90)
                       && ((65 <=? second) && (second <=? 90)))%Z
              then Flag white_flag
              else Flag [base + first - 65; base + second - 65]%Z
          | _ => FlagTypeError
          end
      | _ => FlagTypeError
      end
  | _ => Flag white_flag
  end.

End Flags.

(** [str.upper] on the characters of ASCII. *)
Definition ascii_upper (c : Z) : pystr :=
  if ((97 <=? c) && (c <=? 122))%Z then [c - 32]%Z else [c].

(** [upper] is [str.upper] on ASCII. *)
Definition upper_on_ascii (upper : Z -> pystr) : Prop :=
  forall c, (0 <= c < 128)%Z -> upper c = ascii_upper c.

Definition is_letter (c : Z) : bool :=
  ((65 <=? c) && (c <=? 90) || (97 <=? c) && (c <=? 122))%Z.

(** The place of a letter in the alphabet, from 0. *)
Definition letter_index (c : Z) : Z :=
  (if (97 <=? c) then c - 97 else c - 65)%Z.

(** The two letters a flag of regional indicators stands for, in upper
    case. *)
Definition letters_of_flag (s : pystr) : option pystr :=
  match s with
  | [a; b] =>
      if ((base <=? a) && (a <=? base + 25)
          && ((base <=? b) && (b <=? base + 25)))%Z
      then Some [a - base + 65; b - base + 65]%Z
      else None
  | _ => None
  end.

End Utils.

(** ** Sample inputs *)

Module Examples.

Import Parser.

Definition entry (kind : string) (ts : string) (cmd : option string) : LogEntry :=
  {| session := Some "a1b2c3"; eventid := VStr kind; timestamp := Some ts;
     input := cmd; src_ip := VStr "203.0.113.7"; dst_port := VInt 2222;
     protocol := VStr "ssh" |}.

Definition connect : LogEntry :=
  entry "cowrie.session.connect" "2024-05-01T10:00:00" None.
Definition login_success : LogEntry :=
  entry "cowrie.login.success" "2024-05-01T10:00:01" None.
Definition login_failed : LogEntry :=
  entry "cowrie.login.failed" "2024-05-01T10:00:01" None.
Definition command (ts cmd : string) : LogEntry :=
  entry "cowrie.command.input" ts (Some cmd).

(** A session that prints the MikroTik cloud settings and then fetches a
    miner. *)
Definition recon_then_miner : list LogEntry :=
  [ connect; login_success;
    command "2024-05-01T10:00:02" "/ip cloud print";
    command "2024-05-01T10:00:03" "cd /tmp && wget miner.sh" ].

(** Scenario B of the specification. *)
Definition miner_session : list LogEntry :=
  [ connect; login_success;
    command "2024-05-01T10:00:02" "cd /tmp && wget MINER.sh" ].

(** Scenario A of the specification, with a command typed at the prompt. *)
Definition brute_force_session : list LogEntry :=
  [ connect; login_failed; login_failed;
    command "2024-05-01T10:00:02" "wget miner.sh" ].

(** A session whose earliest entry is a failed login. *)
Definition late_connect_session : list LogEntry :=
  [ entry "cowrie.session.connect" "2024-05-01T10:00:05" None;
    entry "cowrie.login.failed" "2024-05-01T10:00:04" None ].

Definition telnet_session : list LogEntry :=
  [ {| session := Some "ffee01"; eventid := VStr "cowrie.session.connect";
       timestamp := Some "2024-05-01T11:00:00"; input := None;
       src_ip := VStr "198.51.100.9"; dst_port := VInt 2223;
       protocol := VStr "telnet" |} ].

Definition geoip_path : option string := Some "GeoLite2-City.mmdb".

(** A database whose records name a country and hold no coordinates. *)
Definition country_only_db : SyncDaemon.reader :=
  fun _ =>
    SyncDaemon.LookupReturns
      (VDict [("country", VDict [("names", VDict [("en", VStr "South Korea")])])]).

Definition pending_event : pydict :=
  [ ("id", VStr "7f3c"); ("src_ip", VStr "203.0.113.7"); ("lat", VNone);
    ("lon", VNone); ("country", VStr "N/A"); ("label", VStr "scan");
    ("severity", VInt 1) ].

Definition located_event : pydict :=
  [ ("id", VStr "9a1e"); ("src_ip", VStr "198.51.100.9");
    ("lat", VInt 52); ("lon", VInt 13); ("country", VStr "Germany");
    ("label", VStr "brute-force"); ("severity", VInt 2) ].

Definition insertion_order (members : list value) : list value := members.

Definition local_path : string := "data/events.json".

Definition fetched : list value := [VDict pending_event; VDict located_event].

(** A record whose label holds the lone surrogate U+D800, as [json.loads]
    reads it from the escape [\ud800]. *)
Definition surrogate_event : pydict :=
  [ ("id", VStr "c0de"); ("src_ip", VStr "203.0.113.7"); ("lat", VNone);
    ("lon", VNone); ("country", VStr "N/A");
    ("label", VStr (String (ascii_of_nat 237)
                      (String (ascii_of_nat 160)
                         (String (ascii_of_nat 128) EmptyString))));
    ("severity", VInt 1) ].

(** A fresh process with an empty snapshot and no database file. *)
Definition no_db_state : SyncDaemon.state :=
  SyncDaemon.initial SyncDaemon.Absent (Some (SyncDaemon.Text "[]")).

Definition bad_db_state : SyncDaemon.state :=
  SyncDaemon.initial SyncDaemon.Malformed (Some (SyncDaemon.Text "[]")).

Definition country_db_state : SyncDaemon.state :=
  SyncDaemon.initial (SyncDaemon.Valid country_only_db)
    (Some (SyncDaemon.Text "[]")).

(** Scenario C of the specification. *)
Definition scan_session : list LogEntry := [connect].

Definition shell_session : list LogEntry :=
  [ connect; login_failed; login_success;
    command "2024-05-01T10:00:02" "uname -a" ].

Definition sms_session : list LogEntry :=
  [ connect; login_success;
    command "2024-05-01T10:00:02" "ls -la /var/spool/smsd";
    command "2024-05-01T10:00:03" "ps -ef | grep '[Mm]iner'" ].

(** Four lines of a log file: the second is not JSON, the last belongs to
    another session. *)
Definition log_lines : list (option LogEntry) :=
  [ Some connect; None; Some login_failed; Some (hd connect telnet_session) ].

(** A process that holds a reader while the file is gone. *)
Definition held_state : SyncDaemon.state :=
  {| SyncDaemon._geoip_reader := Some country_only_db;
     SyncDaemon.cache := [];
     SyncDaemon.geoip_db := SyncDaemon.Absent;
     SyncDaemon.local_events := None;
     SyncDaemon.trace := [] |}.

(** A daemon that was started on a machine with a database. *)
Definition started_process : Control.process :=
  Control.start_sync_daemon (Control.fresh country_db_state).

Definition uuid_of (n : nat) : string :=
  match n with
  | O => "00000000-0000-4000-8000-000000000000"
  | _ => "00000000-0000-4000-8000-000000000001"
  end.

End Examples.

(** * Properties *)

(** ** Keys *)

Lemma hkey_eqb_refl (k : hkey) : hkey_eqb k k = true.
Proof.
  destruct k; simpl; auto.
  - apply String.eqb_refl.
  - rewrite Bool.eqb_reflx, Pos.eqb_refl, Z.eqb_refl. reflexivity.
  - apply Bool.eqb_reflx.
Qed.

Lemma hkey_eqb_eq (a b : hkey) : hkey_eqb a b = true <-> a = b.
Proof.
  split.
  - destruct a, b; simpl; try discriminate; auto.
    + intros H. apply String.eqb_eq in H. now subst.
    + intros H. apply andb_true_iff in H. destruct H as [H He].
      apply andb_true_iff in H. destruct H as [Hn Hm].
      apply Bool.eqb_prop in Hn. apply Pos.eqb_eq in Hm. apply Z.eqb_eq in He.
      now subst.
    + intros H. apply Bool.eqb_prop in H. now subst.
  - intros ->. apply hkey_eqb_refl.
Qed.

Lemma cache_key_eqb_refl (k : cache_key) : cache_key_eqb k k = true.
Proof. destruct k; apply hkey_eqb_refl. Qed.

Lemma hash_key_make_key (v : value) (k : hkey) :
  hash_key v = Some k -> exists ck, make_key v = Some ck.
Proof.
  intros H. unfold make_key.
  destruct v; rewrite H; simpl; eexists; reflexivity.
Qed.


(** ** The classifier *)

Section ClassifierProperties.

Import Parser.

Variable lower : string -> string.

Lemma eq_str_exclusive (v : value) (s t : string) :
  eq_str v s = true -> s <> t -> eq_str v t = false.
Proof.
  destruct v; simpl; try discriminate.
  intros H Hne. apply String.eqb_eq in H. subst.
  now apply String.eqb_neq.
Qed.

Lemma has_event_cons (name : string) (log : LogEntry) (logs : list LogEntry) :
  has_event name (log :: logs) = eq_str (eventid log) name || has_event name logs.
Proof. reflexivity. Qed.

Lemma commands_of_cons (log : LogEntry) (logs : list LogEntry) :
  commands_of lower (log :: logs) =
  if eq_str (eventid log) "cowrie.command.input"
  then command_text lower log :: commands_of lower logs
  else commands_of lower logs.
Proof.
  unfold commands_of. simpl. unfold is_event at 1.
  now destruct (eq_str (eventid log) "cowrie.command.input").
Qed.

Lemma scan_session_spec (logs : list LogEntry) :
  forall commands s f,
    scan_session lower logs commands s f =
    (commands ++ commands_of lower logs,
     s || has_event "cowrie.login.success" logs,
     f || has_event "cowrie.login.failed" logs).
Proof.
  induction logs as [|log logs IH]; intros commands s f.
  - simpl. now rewrite app_nil_r, !orb_false_r.
  - cbn [scan_session]. rewrite !has_event_cons, commands_of_cons.
    destruct (eq_str (eventid log) "cowrie.login.success") eqn:Es.
    + rewrite IH.
      rewrite (eq_str_exclusive _ _ "cowrie.login.failed" Es) by discriminate.
      rewrite (eq_str_exclusive _ _ "cowrie.command.input" Es) by discriminate.
      simpl. now rewrite orb_true_r.
    + destruct (eq_str (eventid log) "cowrie.login.failed") eqn:Ef.
      * rewrite IH.
        rewrite (eq_str_exclusive _ _ "cowrie.command.input" Ef) by discriminate.
        simpl. now rewrite orb_true_r.
      * destruct (eq_str (eventid log) "cowrie.command.input") eqn:Ec.
        -- rewrite IH. unfold command_text. simpl. now rewrite <- app_assoc.
        -- rewrite IH. reflexivity.
Qed.

Lemma analyze_session_spec (logs : list LogEntry) :
  analyze_session lower logs =
  if has_event "cowrie.login.success" logs then
    match check_commands (commands_of lower logs) with
    | Some r => r
    | None => ("reconnaissance", 2%Z)
    end
  else if has_event "cowrie.login.failed" logs then ("brute-force", 2%Z)
  else ("scan", 1%Z).
Proof.
  unfold analyze_session. rewrite scan_session_spec. reflexivity.
Qed.

Lemma commands_of_app (l1 l2 : list LogEntry) :
  commands_of lower (l1 ++ l2) = commands_of lower l1 ++ commands_of lower l2.
Proof.
  unfold commands_of. now rewrite filter_app, map_app.
Qed.

Lemma check_commands_skip (pre : list string) :
  forall rest,
    (forall cmd, In cmd pre -> has_signature cmd = false) ->
    check_commands (pre ++ rest) = check_commands rest.
Proof.
  induction pre as [|c pre IH]; intros rest Hpre; [reflexivity|].
  simpl.
  assert (Hc : has_signature c = false) by (apply Hpre; now left).
  unfold has_signature in Hc.
  apply orb_false_iff in Hc. destruct Hc as [Hc Hsmsd].
  apply orb_false_iff in Hc. destruct Hc as [Hc Htele].
  apply orb_false_iff in Hc. destruct Hc as [Hminer Hcloud].
  rewrite Hminer, Hcloud, Htele, Hsmsd. simpl.
  apply IH. intros cmd Hin. apply Hpre. now right.
Qed.

Lemma check_commands_severity (commands : list string) (r : string * Z) :
  check_commands commands = Some r -> (3 <= snd r <= 4)%Z.
Proof.
  induction commands as [|c commands IH]; simpl; [discriminate|].
  destruct (str_in "miner" c); [intros [= <-]; simpl; lia|].
  destruct (str_in "/ip cloud print" c); [intros [= <-]; simpl; lia|].
  destruct (str_in "telegramdesktop" c || str_in "smsd" c);
    [intros [= <-]; simpl; lia|].
  exact IH.
Qed.

(** The severity of a classified session is one of 1, 2, 3, 4. *)
Lemma analyze_session_severity (logs : list LogEntry) :
  (1 <= snd (analyze_session lower logs) <= 4)%Z.
Proof.
  rewrite analyze_session_spec.
  destruct (has_event "cowrie.login.success" logs).
  - destruct (check_commands (commands_of lower logs)) as [r|] eqn:E.
    + apply check_commands_severity in E. lia.
    + simpl. lia.
  - destruct (has_event "cowrie.login.failed" logs); simpl; lia.
Qed.

(** C1, as the code has it: a session with a successful login is labelled
    [cryptominer-check] with severity 4 when the first command, in the order of
    the session, that carries any of the four signatures contains "miner" once
    lower-cased. *)
Theorem analyze_session_first_signature_miner
    (before after : list LogEntry) (log : LogEntry) :
  has_event "cowrie.login.success" (before ++ log :: after) = true ->
  is_event "cowrie.command.input" log = true ->
  str_in "miner" (command_text lower log) = true ->
  (forall l, In l before -> is_event "cowrie.command.input" l = true ->
             has_signature (command_text lower l) = false) ->
  analyze_session lower (before ++ log :: after) = ("cryptominer-check", 4%Z).
Proof.
  intros Hs Hc Hm Hbefore.
  rewrite analyze_session_spec, Hs.
  rewrite commands_of_app.
  rewrite check_commands_skip.
  - rewrite commands_of_cons. unfold is_event in Hc. rewrite Hc.
    simpl. now rewrite Hm.
  - intros cmd Hin. unfold commands_of in Hin.
    apply in_map_iff in Hin. destruct Hin as [l [<- Hl]].
    apply filter_In in Hl. destruct Hl as [Hl Hk].
    now apply Hbefore.
Qed.

(** C7: without a successful login and with a failed one the session is a
    [brute-force] of severity 2, whatever commands it holds. *)
Theorem analyze_session_brute_force (logs : list LogEntry) :
  has_event "cowrie.login.success" logs = false ->
  has_event "cowrie.login.failed" logs = true ->
  analyze_session lower logs = ("brute-force", 2%Z).
Proof.
  intros Hs Hf. now rewrite analyze_session_spec, Hs, Hf.
Qed.

End ClassifierProperties.

(** C1, as stated, fails: the session below has a successful login and a
    command that contains "miner", yet an earlier command decides the label. *)
Lemma analyze_session_miner_not_first :
  Parser.has_event "cowrie.login.success" Examples.recon_then_miner = true /\
  existsb (fun l => Parser.is_event "cowrie.command.input" l
                    && str_in "miner" (Parser.command_text str_lower_ascii l))
          Examples.recon_then_miner = true /\
  Parser.analyze_session str_lower_ascii Examples.recon_then_miner
  = ("mikrotik-recon", 3%Z) /\
  Parser.analyze_session str_lower_ascii Examples.recon_then_miner
  <> ("cryptominer-check", 4%Z).
Proof.
  repeat split; try reflexivity. discriminate.
Qed.

Lemma analyze_session_first_signature_miner_witness :
  Parser.analyze_session str_lower_ascii Examples.miner_session
  = ("cryptominer-check", 4%Z).
Proof.
  apply (analyze_session_first_signature_miner str_lower_ascii
           [Examples.connect; Examples.login_success]
           []
           (Examples.command "2024-05-01T10:00:02" "cd /tmp && wget MINER.sh")).
  - reflexivity.
  - reflexivity.
  - reflexivity.
  - intros l [<-|[<-|[]]]; discriminate.
Defined.

Lemma analyze_session_brute_force_witness :
  Parser.analyze_session str_lower_ascii Examples.brute_force_session
  = ("brute-force", 2%Z).
Proof.
  apply analyze_session_brute_force; reflexivity.
Defined.

(** ** Sessions and their events *)

Section ParseProperties.

Import Parser.

Variable lower : string -> string.
Variable uuid4 : nat -> string.

(** The sort of [parse_cowrie_logs] keeps the entries and puts an entry with
    the least timestamp first. *)
Lemma insert_log_perm (x : LogEntry) (l : list LogEntry) :
  Permutation (insert_log x l) (x :: l).
Proof.
  induction l as [|y l IH]; simpl; [apply Permutation_refl|].
  destruct (sort_key x <=? sort_key y)%string; [apply Permutation_refl|].
  eapply perm_trans; [apply perm_skip, IH | apply perm_swap].
Qed.

Lemma sort_logs_perm (l : list LogEntry) : Permutation (sort_logs l) l.
Proof.
  induction l as [|x l IH]; simpl; [constructor|].
  eapply perm_trans; [apply insert_log_perm | now apply perm_skip].
Qed.

Lemma string_leb_trans (s1 : string) :
  forall s2 s3,
    (s1 <=? s2)%string = true -> (s2 <=? s3)%string = true ->
    (s1 <=? s3)%string = true.
Proof.
  induction s1 as [|a s1 IH]; intros [|b s2] [|c s3];
    unfold String.leb; simpl; try easy.
  unfold Ascii.compare.
  destruct (N.compare_spec (N_of_ascii a) (N_of_ascii b)) as [Hab|Hab|Hab];
    destruct (N.compare_spec (N_of_ascii b) (N_of_ascii c)) as [Hbc|Hbc|Hbc];
    destruct (N.compare_spec (N_of_ascii a) (N_of_ascii c)) as [Hac|Hac|Hac];
    try easy; try lia.
  apply IH.
Qed.

Lemma string_leb_refl (s : string) : (s <=? s)%string = true.
Proof. destruct (String.leb_total s s); assumption. Qed.

Lemma insert_log_head (x : LogEntry) (l : list LogEntry) :
  match l with
  | [] => True
  | y :: _ => earliest y l
  end ->
  match insert_log x l with
  | [] => False
  | z :: _ => earliest z (x :: l)
  end.
Proof.
  destruct l as [|y l]; simpl.
  - intros _ z [<-|[]]. apply string_leb_refl.
  - intros Hy.
    destruct (sort_key x <=? sort_key y)%string eqn:E.
    + intros z [<-|Hz]; [apply string_leb_refl|].
      eapply string_leb_trans; [exact E | now apply Hy].
    + intros z [<-|Hz]; [|now apply Hy].
      destruct (String.leb_total (sort_key x) (sort_key y)) as [H|H];
        congruence.
Qed.

Lemma sort_logs_first_earliest (l : list LogEntry) :
  match sort_logs l with
  | [] => l = []
  | first_log :: _ => earliest first_log l
  end.
Proof.
  induction l as [|x l IH]; simpl; [reflexivity|].
  pose proof (insert_log_head x (sort_logs l)) as H.
  destruct (sort_logs l) as [|y s] eqn:Es.
  - subst l. simpl. intros z [<-|[]]. apply string_leb_refl.
  - assert (Hy : earliest y (y :: s)).
    { intros z Hz. apply IH.
      eapply Permutation_in; [|exact Hz].
      rewrite <- Es. apply sort_logs_perm. }
    specialize (H Hy).
    destruct (insert_log x (y :: s)) as [|z t]; [contradiction|].
    intros w [<-|Hw].
    + apply H. now left.
    + apply H. right.
      eapply Permutation_in; [|exact Hw].
      apply Permutation_sym. rewrite <- Es. apply sort_logs_perm.
Qed.

Lemma sort_logs_nonempty (logs : list LogEntry) (first_log : LogEntry)
    (rest : list LogEntry) :
  sort_logs logs = first_log :: rest -> logs <> [].
Proof. intros H ->. discriminate. Qed.

Lemma process_session_sorted (output_events : list pydict) (session_id : string)
    (logs : list LogEntry) (first_log : LogEntry) (rest : list LogEntry) :
  sort_logs logs = first_log :: rest ->
  process_session lower uuid4 output_events (session_id, logs) =
  if negb (eq_str (eventid first_log) "cowrie.session.connect")
  then output_events
  else
    output_events ++
      [make_event (uuid4 (List.length output_events)) first_log
         (fst (analyze_session lower (first_log :: rest)))
         (snd (analyze_session lower (first_log :: rest)))].
Proof.
  intros Hs. unfold process_session. cbn [snd].
  destruct logs as [|l logs]; [discriminate|].
  rewrite Hs.
  destruct (negb (eq_str (eventid first_log) "cowrie.session.connect"));
    [reflexivity|].
  now destruct (analyze_session lower (first_log :: rest)).
Qed.

(** C6: a session whose first entry, once the entries are sorted by timestamp,
    is not a connect event adds nothing to the output events, and the events
    of the whole run are those of the run without that session. *)
Theorem process_session_discards_without_connect
    (before after : list (string * list LogEntry)) (session_id : string)
    (logs : list LogEntry) (first_log : LogEntry) (rest : list LogEntry) :
  sort_logs logs = first_log :: rest ->
  eq_str (eventid first_log) "cowrie.session.connect" = false ->
  (forall output_events,
     process_session lower uuid4 output_events (session_id, logs)
     = output_events) /\
  process_sessions lower uuid4 (before ++ (session_id, logs) :: after)
  = process_sessions lower uuid4 (before ++ after).
Proof.
  intros Hs Hc.
  assert (Hstep : forall output_events,
            process_session lower uuid4 output_events (session_id, logs)
            = output_events).
  { intros out. rewrite (process_session_sorted out _ _ _ _ Hs), Hc.
    reflexivity. }
  split; [exact Hstep|].
  unfold process_sessions. rewrite !fold_left_app. simpl.
  now rewrite Hstep.
Qed.

(** C9: the event of a session that starts with a connect event has [proto]
    "tcp" when the first entry's protocol is "ssh", and the first entry's
    protocol itself otherwise. *)
Theorem process_session_proto
    (output_events : list pydict) (session_id : string)
    (logs : list LogEntry) (first_log : LogEntry) (rest : list LogEntry) :
  sort_logs logs = first_log :: rest ->
  eq_str (eventid first_log) "cowrie.session.connect" = true ->
  exists event,
    process_session lower uuid4 output_events (session_id, logs)
    = output_events ++ [event] /\
    (protocol first_log = VStr "ssh" -> dict_get "proto" event = VStr "tcp") /\
    (protocol first_log <> VStr "ssh" ->
     dict_get "proto" event = protocol first_log).
Proof.
  intros Hs Hc.
  rewrite (process_session_sorted output_events _ _ _ _ Hs), Hc. simpl.
  eexists. split; [reflexivity|].
  unfold make_event, dict_get. simpl. split.
  - intros ->. reflexivity.
  - intros Hne.
    destruct (eq_str (protocol first_log) "ssh") eqn:E; [|reflexivity].
    exfalso. apply Hne.
    destruct (protocol first_log); simpl in E; try discriminate.
    apply String.eqb_eq in E. now subst.
Qed.

(** Every event of the classifier carries a severity between 1 and 4, no
    coordinates and the placeholder country. *)
Lemma make_event_fields (id : string) (first_log : LogEntry)
    (logs : list LogEntry) :
  let event := make_event id first_log (fst (analyze_session lower logs))
                 (snd (analyze_session lower logs)) in
  (exists severity, dict_get "severity" event = VInt severity
                    /\ (1 <= severity <= 4)%Z) /\
  dict_get "lat" event = VNone /\
  dict_get "lon" event = VNone /\
  dict_get "country" event = VStr "N/A".
Proof.
  simpl. repeat split.
  exists (snd (analyze_session lower logs)). split; [reflexivity|].
  apply analyze_session_severity.
Qed.

(** A session adds to the output at most one event, which has these fields;
    so has every event of a run. *)
Lemma process_session_fields (output_events : list pydict)
    (entry : string * list LogEntry) :
  let fields event :=
    (exists severity, dict_get "severity" event = VInt severity
                      /\ (1 <= severity <= 4)%Z) /\
    dict_get "lat" event = VNone /\
    dict_get "lon" event = VNone /\
    dict_get "country" event = VStr "N/A" in
  Forall fields output_events ->
  Forall fields (process_session lower uuid4 output_events entry).
Proof.
  intros fields Hout. destruct entry as [session_id logs].
  destruct (sort_logs logs) as [|first_log rest] eqn:Hs.
  - unfold process_session. cbn [snd].
    destruct logs as [|l logs]; [exact Hout|]. now rewrite Hs.
  - rewrite (process_session_sorted output_events _ _ _ _ Hs).
    destruct (negb (eq_str (eventid first_log) "cowrie.session.connect"));
      [exact Hout|].
    apply Forall_app. split; [exact Hout|].
    constructor; [|constructor]. apply make_event_fields.
Qed.

Lemma process_sessions_fields (sessions : list (string * list LogEntry)) :
  Forall (fun event =>
            (exists severity, dict_get "severity" event = VInt severity
                              /\ (1 <= severity <= 4)%Z) /\
            dict_get "lat" event = VNone /\
            dict_get "lon" event = VNone /\
            dict_get "country" event = VStr "N/A")
    (process_sessions lower uuid4 sessions).
Proof.
  unfold process_sessions.
  assert (H : forall output_events,
            Forall (fun event =>
                      (exists severity, dict_get "severity" event = VInt severity
                                        /\ (1 <= severity <= 4)%Z) /\
                      dict_get "lat" event = VNone /\
                      dict_get "lon" event = VNone /\
                      dict_get "country" event = VStr "N/A") output_events ->
            Forall (fun event =>
                      (exists severity, dict_get "severity" event = VInt severity
                                        /\ (1 <= severity <= 4)%Z) /\
                      dict_get "lat" event = VNone /\
                      dict_get "lon" event = VNone /\
                      dict_get "country" event = VStr "N/A")
              (fold_left (process_session lower uuid4) sessions output_events)).
  { induction sessions as [|entry sessions IH]; intros out Hout;
      [exact Hout|].
    cbn [fold_left]. apply IH. now apply process_session_fields. }
  apply H. constructor.
Qed.

End ParseProperties.

Lemma process_session_discards_without_connect_witness :
  (forall output_events,
     Parser.process_session str_lower_ascii Examples.uuid_of output_events
       ("a1b2c3", Examples.late_connect_session) = output_events) /\
  Parser.process_sessions str_lower_ascii Examples.uuid_of
    ([("ffee01", Examples.telnet_session)]
       ++ ("a1b2c3", Examples.late_connect_session) :: [])
  = Parser.process_sessions str_lower_ascii Examples.uuid_of
      ([("ffee01", Examples.telnet_session)] ++ []).
Proof.
  apply (process_session_discards_without_connect str_lower_ascii
           Examples.uuid_of [("ffee01", Examples.telnet_session)] [] "a1b2c3"
           Examples.late_connect_session
           (Examples.entry "cowrie.login.failed" "2024-05-01T10:00:04" None)
           [Examples.entry "cowrie.session.connect" "2024-05-01T10:00:05" None]).
  - reflexivity.
  - reflexivity.
Defined.

Lemma process_session_proto_witness :
  exists event,
    Parser.process_session str_lower_ascii Examples.uuid_of []
      ("a1b2c3", Examples.recon_then_miner) = [] ++ [event] /\
    (Parser.protocol Examples.connect = VStr "ssh" ->
     dict_get "proto" event = VStr "tcp") /\
    (Parser.protocol Examples.connect <> VStr "ssh" ->
     dict_get "proto" event = Parser.protocol Examples.connect).
Proof.
  apply (process_session_proto str_lower_ascii Examples.uuid_of []
           "a1b2c3" Examples.recon_then_miner Examples.connect
           (tl Examples.recon_then_miner)).
  - reflexivity.
  - reflexivity.
Defined.

(** ** The sync daemon *)

Section DaemonProperties.

Import SyncDaemon.

Variable _GEOIP_DB_PATH : option string.
Variable _LOCAL_PATH : string.
Variable _INTERVAL_S : Z.
Variable set_order : list value -> list value.

Local Abbreviation get_reader := (_get_geoip_reader _GEOIP_DB_PATH).
Local Abbreviation resolve := (_get_location_for_ip _GEOIP_DB_PATH).
Local Abbreviation fill := (_fill_location_info _GEOIP_DB_PATH).
Local Abbreviation sync_once := (_sync_once _GEOIP_DB_PATH _LOCAL_PATH set_order).
Local Abbreviation iteration :=
  (loop_iteration _GEOIP_DB_PATH _LOCAL_PATH _INTERVAL_S set_order).

Lemma queries_app (t u : list io) : queries (t ++ u) = (queries t + queries u)%nat.
Proof. unfold queries. now rewrite filter_app, length_app. Qed.

Lemma probes_app (t u : list io) : probes (t ++ u) = (probes t + probes u)%nat.
Proof. unfold probes. now rewrite filter_app, length_app. Qed.

Ltac run :=
  unfold bind, ret, raise, emit, set_reader, set_cache, set_local_events;
  cbn [fst snd _geoip_reader cache geoip_db local_events trace].

(** *** Fetches that fail or bring nothing *)

(** C5: when the fetch fails, or the body is not JSON, the turn of the loop
    writes nothing: the local file is as it was, the turn prints the failure
    and a count of zero and waits for the interval, and the loop goes on to
    its next turn. *)
Theorem loop_iteration_fetch_failure (resp : s3_response) (st : state) :
  fetch_failed resp = true ->
  exists st',
    iteration resp st = (Ok tt, st') /\
    fst (sync_once resp st) = Ok 0%Z /\
    local_events st' = local_events st /\
    trace st' = trace st ++ [Print (failure_message resp);
                             Print (MsgSyncDone 0); Wait _INTERVAL_S] /\
    forall rest,
      loop_turns _GEOIP_DB_PATH _LOCAL_PATH _INTERVAL_S set_order
        ((resp, false) :: rest) st
      = loop_turns _GEOIP_DB_PATH _LOCAL_PATH _INTERVAL_S set_order rest st'.
Proof.
  intros Hf. destruct st as [rd c db file t].
  destruct resp; try discriminate;
    (eexists; split; [reflexivity|]; cbn; repeat split;
     now rewrite <- !app_assoc).
Qed.

(** C10: a fetched empty array, and a fetched value that is neither an array
    nor an object, end the sync with a count of zero and leave the whole
    state, the local file in it, as it was. *)
Theorem sync_once_nothing_to_publish (v : value) (st : state) :
  v = VList [] \/ is_container v = false ->
  sync_once (S3Json v) st = (Ok 0%Z, st).
Proof.
  intros [->|Hv]; [reflexivity|].
  destruct v as [| b | z | f | s | l | d]; try discriminate; reflexivity.
Qed.

(** *** The lookup and its cache *)

Lemma location_of_match_keys (m : value) (d : pydict) :
  location_of_match m = Some d -> location_ok (Some d).
Proof.
  unfold location_of_match, opt_bind.
  repeat match goal with
         | |- context [match ?x with Some _ => _ | None => _ end] =>
             destruct x; try discriminate
         end.
  intros [= <-]. simpl. unfold geo_keys.
  repeat (apply Forall_cons; [simpl; auto 10|]). apply Forall_nil.
Qed.

(** The body of the lookup always returns; it leaves the cache and the files
    alone and asks the database at most once. *)
Lemma locate_outcome (ip : value) (st : state) :
  exists v st',
    locate _GEOIP_DB_PATH ip st = (Ok v, st') /\
    cache st' = cache st /\
    local_events st' = local_events st /\
    geoip_db st' = geoip_db st /\
    location_ok v /\
    (queries (trace st') <= queries (trace st) + 1)%nat.
Proof.
  destruct st as [rd c db file t].
  unfold locate, _get_geoip_reader. run.
  assert (Hunk : location_ok (Some unknown_country)).
  { simpl. unfold geo_keys. apply Forall_cons; [simpl; auto 10|].
    apply Forall_nil. }
  assert (Hnone : location_ok None) by exact I.
  destruct rd as [r|]; [|destruct _GEOIP_DB_PATH as [p|];
                          [destruct (p =? "")%string; [|destruct db as [| |r]]|]];
    run;
    try (destruct (truthy ip); run;
         [destruct (r ip) as [|m]; run;
          [|destruct (truthy m); run;
            [destruct (location_of_match m) as [d|] eqn:E; run;
             [apply location_of_match_keys in E|]|]]|]);
    (do 2 eexists; split; [reflexivity|];
     cbn [cache local_events geoip_db trace]; repeat split; auto;
     rewrite ?queries_app; unfold queries; simpl; lia).
Qed.

Lemma cache_find_head (k : cache_key) (v : option pydict)
    (c : list (cache_key * option pydict)) :
  cache_find k ((k, v) :: c) = Some v.
Proof. simpl. now rewrite cache_key_eqb_refl. Qed.

Lemma firstn_maxsize_cons (x : cache_key * option pydict)
    (c : list (cache_key * option pydict)) :
  firstn maxsize (x :: c) = x :: firstn (Nat.pred maxsize) c.
Proof. reflexivity. Qed.

(** A lookup that misses the cache runs the body and stores its result. *)
Lemma resolve_miss (ip : value) (k : cache_key) (st : state) :
  make_key ip = Some k ->
  cache_find k (cache st) = None ->
  exists v st1,
    locate _GEOIP_DB_PATH ip st = (Ok v, st1) /\
    resolve ip st =
    (Ok v, {| _geoip_reader := _geoip_reader st1;
              cache := (k, v) :: firstn (Nat.pred maxsize) (cache st);
              geoip_db := geoip_db st1; local_events := local_events st1;
              trace := trace st1 |}).
Proof.
  intros Hk Hc.
  destruct (locate_outcome ip st) as (v & st1 & Hl & Hcache & _).
  exists v, st1. split; [exact Hl|].
  unfold _get_location_for_ip. rewrite Hk, Hc.
  unfold bind at 1. rewrite Hl. run.
  now rewrite firstn_maxsize_cons, Hcache.
Qed.

(** A lookup that hits the cache returns the cached result without I/O. *)
Lemma resolve_hit (ip : value) (k : cache_key) (v : option pydict) (st : state) :
  make_key ip = Some k ->
  cache_find k (cache st) = Some v ->
  resolve ip st =
  (Ok v, {| _geoip_reader := _geoip_reader st;
            cache := (k, v) :: cache_remove k (cache st);
            geoip_db := geoip_db st; local_events := local_events st;
            trace := trace st |}).
Proof.
  intros Hk Hc. unfold _get_location_for_ip. now rewrite Hk, Hc.
Qed.


(** *** No database *)

Lemma get_reader_unavailable (st : state) :
  _geoip_reader st = None ->
  db_unavailable _GEOIP_DB_PATH (geoip_db st) = true ->
  get_reader st =
  (Ok None, {| _geoip_reader := None; cache := cache st;
               geoip_db := geoip_db st; local_events := local_events st;
               trace := trace st
                        ++ failed_open_trace _GEOIP_DB_PATH (geoip_db st) |}).
Proof.
  destruct st as [rd c db file t]. cbn [_geoip_reader geoip_db].
  intros -> Hdb. unfold _get_geoip_reader, db_unavailable, failed_open_trace in *.
  cbn [_geoip_reader geoip_db cache local_events trace].
  destruct _GEOIP_DB_PATH as [p|]; [|reflexivity].
  cbn [path_unset] in Hdb.
  destruct (p =? "")%string; [reflexivity|].
  destruct db as [| |r]; [| |discriminate]; run;
    now rewrite <- ?app_assoc.
Qed.

Lemma locate_unavailable (ip : value) (st : state) :
  _geoip_reader st = None ->
  db_unavailable _GEOIP_DB_PATH (geoip_db st) = true ->
  locate _GEOIP_DB_PATH ip st =
  (Ok None, {| _geoip_reader := None; cache := cache st;
               geoip_db := geoip_db st; local_events := local_events st;
               trace := trace st
                        ++ failed_open_trace _GEOIP_DB_PATH (geoip_db st) |}).
Proof.
  intros Hr Hdb. unfold locate, bind.
  now rewrite (get_reader_unavailable st Hr Hdb).
Qed.

Lemma failed_open_probes (db : db_file) :
  path_unset _GEOIP_DB_PATH = false ->
  db_unavailable _GEOIP_DB_PATH db = true ->
  (1 <= probes (failed_open_trace _GEOIP_DB_PATH db))%nat.
Proof.
  unfold db_unavailable, failed_open_trace, path_unset.
  destruct _GEOIP_DB_PATH as [p|]; [|discriminate].
  intros ->. simpl. destruct db; [| |discriminate]; intros _; cbn; lia.
Qed.

(** C2, as the code has it: while the database is unavailable and no reader
    is held, a lookup of an address that has no cached result tries to get a
    reader again, with the accesses to the file that this takes, returns
    unknown and caches it for that address; only a lookup of an address that
    has a cached result returns it without touching the file. *)
Theorem resolve_database_unavailable (ip : value) (k : cache_key)
    (st : state) :
  make_key ip = Some k ->
  _geoip_reader st = None ->
  db_unavailable _GEOIP_DB_PATH (geoip_db st) = true ->
  (cache_find k (cache st) = None ->
   exists st',
     resolve ip st = (Ok None, st') /\
     trace st' = trace st ++ failed_open_trace _GEOIP_DB_PATH (geoip_db st) /\
     (path_unset _GEOIP_DB_PATH = false ->
      (probes (trace st) < probes (trace st'))%nat) /\
     _geoip_reader st' = None /\
     geoip_db st' = geoip_db st /\
     cache_find k (cache st') = Some None) /\
  (forall v,
     cache_find k (cache st) = Some v ->
     exists st',
       resolve ip st = (Ok v, st') /\
       trace st' = trace st /\
       _geoip_reader st' = None /\
       geoip_db st' = geoip_db st /\
       cache_find k (cache st') = Some v).
Proof.
  intros Hk Hr Hdb. split.
  - intros Hc.
    destruct (resolve_miss ip k st Hk Hc) as (v & st1 & Hl & ->).
    rewrite (locate_unavailable ip st Hr Hdb) in Hl.
    injection Hl as <- <-.
    eexists. split; [reflexivity|].
    cbn [trace _geoip_reader geoip_db cache]. repeat split.
    + intros Hp. rewrite probes_app.
      pose proof (failed_open_probes (geoip_db st) Hp Hdb). lia.
    + apply cache_find_head.
  - intros v Hc. rewrite (resolve_hit ip k v st Hk Hc).
    eexists. split; [reflexivity|].
    cbn [trace _geoip_reader geoip_db cache]. repeat split; auto.
    apply cache_find_head.
Qed.

Lemma cache_find_In (k : cache_key) (v : option pydict)
    (c : list (cache_key * option pydict)) :
  cache_find k c = Some v -> exists k', In (k', v) c.
Proof.
  induction c as [|[k' v'] c IH]; simpl; [discriminate|].
  destruct (cache_key_eqb k' k).
  - intros [= ->]. exists k'. now left.
  - intros H. destruct (IH H) as [k'' Hin]. exists k''. now right.
Qed.

Lemma Forall_cache_remove (P : cache_key * option pydict -> Prop) (k : cache_key)
    (c : list (cache_key * option pydict)) :
  Forall P c -> Forall P (cache_remove k c).
Proof.
  induction 1 as [|[k' v'] c Hx Hc IH]; simpl; [constructor|].
  destruct (cache_key_eqb k' k); auto.
Qed.

Lemma Forall_firstn_keep {A : Type} (P : A -> Prop) (n : nat) (l : list A) :
  Forall P l -> Forall P (firstn n l).
Proof.
  revert n. induction l as [|x l IH]; intros [|n] H; simpl; auto.
  inversion H; subst. constructor; auto.
Qed.

Lemma Forall_cache_find (P : option pydict -> Prop) (k : cache_key)
    (v : option pydict) (c : list (cache_key * option pydict)) :
  Forall (fun kv => P (snd kv)) c -> cache_find k c = Some v -> P v.
Proof.
  intros HF Hc. destruct (cache_find_In k v c Hc) as [k' Hin].
  rewrite Forall_forall in HF. exact (HF _ Hin).
Qed.

(** In a degraded state every lookup of a hashable address is unknown, and the
    state stays degraded. *)
Lemma resolve_degraded (ip : value) (st : state) :
  hashable ip = true ->
  degraded _GEOIP_DB_PATH st ->
  exists st', resolve ip st = (Ok None, st') /\ degraded _GEOIP_DB_PATH st'.
Proof.
  unfold hashable. destruct (hash_key ip) as [hk|] eqn:Hhk; [|discriminate].
  destruct (hash_key_make_key ip hk Hhk) as [k Hk].
  intros _ (Hr & Hdb & Hc).
  destruct (cache_find k (cache st)) as [v|] eqn:Hf.
  - assert (v = None) by
      exact (Forall_cache_find (fun v => v = None) k v _ Hc Hf).
    subst v. rewrite (resolve_hit ip k None st Hk Hf).
    eexists. split; [reflexivity|]. unfold degraded.
    cbn [_geoip_reader geoip_db cache]. repeat split; auto.
    constructor; [reflexivity|]. now apply Forall_cache_remove.
  - destruct (resolve_miss ip k st Hk Hf) as (v & st1 & Hl & ->).
    rewrite (locate_unavailable ip st Hr Hdb) in Hl.
    injection Hl as <- <-.
    eexists. split; [reflexivity|]. unfold degraded.
    cbn [_geoip_reader geoip_db cache]. repeat split; auto.
    constructor; [reflexivity|]. now apply Forall_firstn_keep.
Qed.

Lemma lookup_all_degraded (ips : list value) :
  forall st,
    Forall (fun ip => hashable ip = true) ips ->
    degraded _GEOIP_DB_PATH st ->
    exists st',
      lookup_all _GEOIP_DB_PATH ips st = (Ok tt, st') /\
      degraded _GEOIP_DB_PATH st'.
Proof.
  induction ips as [|ip ips IH]; intros st Hh Hd.
  - exists st. now split.
  - inversion Hh as [|? ? Hip Hips]; subst.
    destruct (resolve_degraded ip st Hip Hd) as (st1 & Hr & Hd1).
    destruct (IH st1 Hips Hd1) as (st2 & Hl & Hd2).
    exists st2. split; [|exact Hd2].
    cbn [lookup_all]. unfold bind at 1. now rewrite Hr.
Qed.

Lemma lacks_location_truthy (item : pydict) :
  lacks_location item = true -> truthy (dict_get "src_ip" item) = true.
Proof.
  unfold lacks_location. intros H. now apply andb_true_iff in H.
Qed.

Lemma record_ok_hashable (item : pydict) :
  record_ok (VDict item) = true ->
  lacks_location item = true ->
  hashable (dict_get "src_ip" item) = true.
Proof.
  intros Hok Hl. apply lacks_location_truthy in Hl.
  simpl in Hok. now rewrite Hl in Hok.
Qed.

Lemma unique_ips_ok (items : list value) :
  forall members,
    Forall (fun item => record_ok item = true) items ->
    Forall (fun ip => hashable ip = true) members ->
    exists members',
      unique_ips items members = Ok members' /\
      Forall (fun ip => hashable ip = true) members'.
Proof.
  induction items as [|item items IH]; intros members Hok Hm.
  - exists members. now split.
  - inversion Hok as [|? ? Hitem Hitems]; subst.
    destruct item as [| b | z | f | s | l | d]; try discriminate.
    cbn [unique_ips].
    destruct (lacks_location d) eqn:Hl; [|now apply IH].
    pose proof (record_ok_hashable d Hitem Hl) as Hh.
    unfold hashable in Hh.
    destruct (hash_key (dict_get "src_ip" d)) as [k|] eqn:Hk; [|discriminate].
    destruct (in_keys k members); [now apply IH|].
    apply IH; [exact Hitems|].
    apply Forall_app. split; [exact Hm|].
    constructor; [|constructor]. unfold hashable. now rewrite Hk.
Qed.

Lemma fill_degraded (item : pydict) (st : state) :
  lacks_location item = true ->
  record_ok (VDict item) = true ->
  degraded _GEOIP_DB_PATH st ->
  exists st',
    fill item st = (Ok (dict_set "country" (VStr "Unknown") item), st') /\
    degraded _GEOIP_DB_PATH st'.
Proof.
  intros Hl Hok Hd.
  pose proof (record_ok_hashable item Hok Hl) as Hh.
  destruct (resolve_degraded _ st Hh Hd) as (st' & Hr & Hd').
  exists st'. split; [|exact Hd'].
  unfold _fill_location_info.
  rewrite (lacks_location_truthy item Hl).
  unfold bind. now rewrite Hr.
Qed.

Lemma count_lacking_cons (item : value) (items : list value) :
  count_lacking (item :: items) =
  ((match item with
    | VDict d => if lacks_location d then 1 else 0
    | _ => 0
    end) + count_lacking items)%Z.
Proof.
  unfold count_lacking. cbn [filter].
  destruct item as [| b | z | f | s | l | d]; try reflexivity.
  destruct (lacks_location d); [|reflexivity].
  cbn [List.length]. lia.
Qed.

Lemma fill_all_degraded (items : list value) :
  forall filled_count st,
    Forall (fun item => record_ok item = true) items ->
    degraded _GEOIP_DB_PATH st ->
    exists st',
      fill_all _GEOIP_DB_PATH items filled_count st =
      (Ok (map mark_unknown items, (filled_count + count_lacking items)%Z), st')
      /\ degraded _GEOIP_DB_PATH st'.
Proof.
  induction items as [|item items IH]; intros n st Hok Hd.
  - exists st. split; [|exact Hd]. cbn [fill_all map]. unfold ret.
    unfold count_lacking. cbn [filter List.length Z.of_nat].
    now rewrite Z.add_0_r.
  - inversion Hok as [|? ? Hitem Hitems]; subst.
    destruct item as [| b | z | f | s | l | d]; try discriminate.
    rewrite count_lacking_cons. cbn [fill_all map mark_unknown].
    destruct (lacks_location d) eqn:Hl.
    + destruct (fill_degraded d st Hl Hitem Hd) as (st1 & Hf & Hd1).
      destruct (IH (n + 1)%Z st1 Hitems Hd1) as (st2 & Hr & Hd2).
      exists st2. split; [|exact Hd2].
      unfold bind at 1. rewrite Hf. unfold bind at 1. rewrite Hr.
      unfold ret. cbn [fst snd]. rewrite Z.add_assoc. reflexivity.
    + destruct (IH n st Hitems Hd) as (st2 & Hr & Hd2).
      exists st2. split; [|exact Hd2].
      unfold bind at 1. rewrite Hr. unfold ret. cbn [fst snd].
      rewrite Z.add_0_l. reflexivity.
Qed.


Lemma degraded_emit (e : io) (st : state) :
  degraded _GEOIP_DB_PATH st -> degraded _GEOIP_DB_PATH (snd (emit e st)).
Proof. intros H. exact H. Qed.

Lemma lookup_phase_degraded (members : list value) (st : state) :
  (forall l, Permutation (set_order l) l) ->
  Forall (fun ip => hashable ip = true) members ->
  degraded _GEOIP_DB_PATH st ->
  exists st',
    match members with
    | [] => ret tt
    | _ :: _ =>
        emit (Print (MsgLookup (List.length members))) ;;;
        lookup_all _GEOIP_DB_PATH (set_order members)
    end st = (Ok tt, st') /\
    degraded _GEOIP_DB_PATH st'.
Proof.
  intros Hperm Hm Hd.
  destruct members as [|ip members]; [exists st; now split|].
  assert (Hm' : Forall (fun ip => hashable ip = true)
                  (set_order (ip :: members))).
  { rewrite Forall_forall in *. intros x Hx. apply Hm.
    eapply Permutation_in; [apply Hperm | exact Hx]. }
  destruct (lookup_all_degraded _ _ Hm'
              (degraded_emit (Print (MsgLookup (List.length (ip :: members))))
                 st Hd))
    as (st' & Hl & Hd').
  exists st'. split; [|exact Hd'].
  unfold bind at 1. exact Hl.
Qed.

Lemma dict_lookup_set_other (k k' : string) (v : value) (d : pydict) :
  k <> k' -> dict_lookup k (dict_set k' v d) = dict_lookup k d.
Proof.
  intros Hne. induction d as [|[k0 v0] d IH]; simpl.
  - destruct (k' =? k)%string eqn:E; [|reflexivity].
    apply String.eqb_eq in E. congruence.
  - destruct (k0 =? k')%string eqn:E0; simpl.
    + apply String.eqb_eq in E0. subst k0.
      destruct (k' =? k)%string eqn:E; [|reflexivity].
      apply String.eqb_eq in E. congruence.
    + destruct (k0 =? k)%string; [reflexivity|exact IH].
Qed.

Lemma dict_lookup_set_same (k : string) (v : value) (d : pydict) :
  dict_lookup k (dict_set k v d) = Some v.
Proof.
  induction d as [|[k0 v0] d IH]; simpl.
  - now rewrite String.eqb_refl.
  - destruct (k0 =? k)%string eqn:E; simpl; rewrite E; [reflexivity|exact IH].
Qed.

Lemma dict_get_set_other (k k' : string) (v : value) (d : pydict) :
  k <> k' -> dict_get k (dict_set k' v d) = dict_get k d.
Proof. intros H. unfold dict_get. now rewrite dict_lookup_set_other. Qed.

Lemma dict_get_set_same (k : string) (v : value) (d : pydict) :
  dict_get k (dict_set k v d) = v.
Proof. unfold dict_get. now rewrite dict_lookup_set_same. Qed.

Lemma dict_update_frame (keys : list string) (k : string) (other : pydict) :
  forall d,
    Forall (fun kv => In (fst kv) keys) other ->
    ~ In k keys ->
    dict_get k (dict_update d other) = dict_get k d.
Proof.
  unfold dict_update.
  induction other as [|[k0 v0] other IH]; intros d Hk Hn; [reflexivity|].
  inversion Hk as [|? ? Hk0 Hother]; subst. cbn [fold_left fst snd].
  rewrite IH by assumption.
  apply dict_get_set_other. intros ->. now apply Hn.
Qed.

Lemma sync_once_list (item : value) (items : list value) (st : state) :
  sync_once (S3Json (VList (item :: items))) st =
  (unique_ips_to_find <-
     (fun st => (unique_ips (item :: items) [], st)) ;;
   match unique_ips_to_find with
   | [] => ret tt
   | _ :: _ =>
       emit (Print (MsgLookup (List.length unique_ips_to_find))) ;;;
       lookup_all _GEOIP_DB_PATH (set_order unique_ips_to_find)
   end ;;;
   r <- fill_all _GEOIP_DB_PATH (item :: items) 0%Z ;;
   _atomic_write_json _LOCAL_PATH (VList (fst r)) ;;;
   ret (snd r)) st.
Proof. reflexivity. Qed.

(** *** The write *)

Lemma atomic_write_json_outcome (path : string) (data : value) (st : state) :
  _atomic_write_json path data st =
  if encodable data then
    (Ok tt, {| _geoip_reader := _geoip_reader st; cache := cache st;
               geoip_db := geoip_db st;
               local_events := Some (JsonDump data);
               trace := trace st ++ [AtomicWrite path data] |})
  else (Raise UnicodeEncodeError, st).
Proof.
  unfold _atomic_write_json. destruct (encodable data); reflexivity.
Qed.

(** A sync whose lookups and fills return ends in the write: it returns the
    count when the list can be encoded, and raises otherwise, with the state
    that the fills left. *)
Lemma sync_once_write (item : value) (items members out : list value) (n : Z)
    (st st1 st2 : state) :
  unique_ips (item :: items) [] = Ok members ->
  match members with
  | [] => ret tt
  | _ :: _ =>
      emit (Print (MsgLookup (List.length members))) ;;;
      lookup_all _GEOIP_DB_PATH (set_order members)
  end st = (Ok tt, st1) ->
  fill_all _GEOIP_DB_PATH (item :: items) 0%Z st1 = (Ok (out, n), st2) ->
  sync_once (S3Json (VList (item :: items))) st =
  if encodable (VList out) then
    (Ok n, {| _geoip_reader := _geoip_reader st2; cache := cache st2;
              geoip_db := geoip_db st2;
              local_events := Some (JsonDump (VList out));
              trace := trace st2 ++ [AtomicWrite _LOCAL_PATH (VList out)] |})
  else (Raise UnicodeEncodeError, st2).
Proof.
  intros Hu Hl Hf. rewrite sync_once_list.
  unfold bind at 1. rewrite Hu.
  unfold bind at 1. rewrite Hl.
  unfold bind at 1. rewrite Hf.
  unfold bind at 1. cbn [fst snd]. rewrite atomic_write_json_outcome.
  destruct (encodable (VList out)); reflexivity.
Qed.

Lemma encodable_dict_set (k : string) (v : value) (d : pydict) :
  has_surrogate k = false ->
  encodable v = true ->
  encodable (VDict d) = true ->
  encodable (VDict (dict_set k v d)) = true.
Proof.
  intros Hk Hv. induction d as [|[k0 v0] d IH]; intros Hd.
  - cbn [dict_set encodable forallb fst snd]. now rewrite Hk, Hv.
  - cbn [encodable forallb fst snd] in Hd.
    apply andb_prop in Hd. destruct Hd as [H0 Hd].
    apply andb_prop in H0. destruct H0 as [Hk0 Hv0].
    cbn [dict_set]. destruct (k0 =? k)%string.
    + cbn [encodable forallb fst snd]. now rewrite Hk0, Hv, Hd.
    + cbn [encodable forallb fst snd]. rewrite Hk0, Hv0.
      exact (IH Hd).
Qed.

(** The placeholder country is plain text: a list that can be encoded as
    fetched can be encoded once its records are marked. *)
Lemma encodable_mark_unknown (items : list value) :
  encodable (VList items) = true ->
  encodable (VList (map mark_unknown items)) = true.
Proof.
  induction items as [|item items IH]; intros H; [reflexivity|].
  cbn [encodable forallb] in H. apply andb_prop in H. destruct H as [Hi Hr].
  cbn [map encodable forallb]. apply andb_true_intro. split; [|exact (IH Hr)].
  destruct item as [| b | z | f | s | l | d]; try exact Hi.
  cbn [mark_unknown]. destruct (lacks_location d); [|exact Hi].
  now apply encodable_dict_set.
Qed.

(** *** What enrichment touches *)

Lemma resolve_cache_ok (ip : value) (k : cache_key) (st : state) :
  make_key ip = Some k ->
  cache_ok st ->
  exists v st',
    resolve ip st = (Ok v, st') /\ location_ok v /\ cache_ok st'.
Proof.
  intros Hk Hc. unfold cache_ok in *.
  destruct (cache_find k (cache st)) as [v|] eqn:Hf.
  - rewrite (resolve_hit ip k v st Hk Hf).
    assert (Hv : location_ok v) by
      exact (Forall_cache_find location_ok k v _ Hc Hf).
    do 2 eexists. split; [reflexivity|]. split; [exact Hv|].
    cbn [cache]. constructor; [exact Hv|]. now apply Forall_cache_remove.
  - destruct (resolve_miss ip k st Hk Hf) as (v & st1 & Hl & ->).
    destruct (locate_outcome ip st) as (v' & st1' & Hl' & _ & _ & _ & Hv & _).
    rewrite Hl in Hl'. injection Hl' as <- <-.
    do 2 eexists. split; [reflexivity|]. split; [exact Hv|].
    cbn [cache]. constructor; [exact Hv|]. now apply Forall_firstn_keep.
Qed.

(** [_fill_location_info] returns for every event whose address can be
    hashed, and changes no field other than the three geographic ones. *)
Lemma fill_frame (event : pydict) (st : state) :
  cache_ok st ->
  (truthy (dict_get "src_ip" event) = true ->
   hashable (dict_get "src_ip" event) = true) ->
  exists event' st',
    fill event st = (Ok event', st') /\
    cache_ok st' /\
    forall k, ~ In k geo_keys -> dict_get k event' = dict_get k event.
Proof.
  intros Hc Hh. unfold _fill_location_info.
  destruct (truthy (dict_get "src_ip" event)) eqn:Ht.
  - specialize (Hh eq_refl). unfold hashable in Hh.
    destruct (hash_key (dict_get "src_ip" event)) as [hk|] eqn:Hhk;
      [|discriminate].
    destruct (hash_key_make_key _ hk Hhk) as [k Hk].
    destruct (resolve_cache_ok _ k st Hk Hc) as (v & st' & Hr & Hv & Hc').
    unfold bind. rewrite Hr.
    assert (Hcountry : forall key, ~ In key geo_keys -> key <> "country").
    { intros key Hn ->. apply Hn. unfold geo_keys. simpl. auto. }
    destruct v as [[|kv d]|]; unfold ret.
    + do 2 eexists. split; [reflexivity|]. split; [exact Hc'|].
      intros key Hn. apply dict_get_set_other. now apply Hcountry.
    + do 2 eexists. split; [reflexivity|]. split; [exact Hc'|].
      intros key Hn. now apply (dict_update_frame geo_keys).
    + do 2 eexists. split; [reflexivity|]. split; [exact Hc'|].
      intros key Hn. apply dict_get_set_other. now apply Hcountry.
  - exists event, st. split; [reflexivity|]. split; [exact Hc|]. reflexivity.
Qed.

End DaemonProperties.

(** C4, as the code has it: every event that the classifier emits, from any
    sessions and so from any log file, has a severity between 1 and 4, no
    coordinates and the placeholder country "N/A"; enriching an event leaves
    its severity as it was, so that a severity of at least 1 stays one, and
    changes no field other than latitude, longitude and country. *)
Theorem event_severity_and_enrichment_frame
    (lower : string -> string) (uuid4 : nat -> string)
    (sessions : list (string * list Parser.LogEntry))
    (input_file : option (list (option Parser.LogEntry)))
    (path : option string) (event : pydict) (st : SyncDaemon.state) :
  SyncDaemon.cache_ok st ->
  (truthy (dict_get "src_ip" event) = true ->
   SyncDaemon.hashable (dict_get "src_ip" event) = true) ->
  (forall produced,
     In produced (Parser.process_sessions lower uuid4 sessions) ->
     (exists severity, dict_get "severity" produced = VInt severity
                       /\ (1 <= severity <= 4)%Z) /\
     dict_get "lat" produced = VNone /\
     dict_get "lon" produced = VNone /\
     dict_get "country" produced = VStr "N/A") /\
  (forall events produced,
     Parser.parse_cowrie_logs lower uuid4 input_file = Some events ->
     In produced events ->
     (exists severity, dict_get "severity" produced = VInt severity
                       /\ (1 <= severity <= 4)%Z) /\
     dict_get "lat" produced = VNone /\
     dict_get "lon" produced = VNone /\
     dict_get "country" produced = VStr "N/A") /\
  (exists enriched st',
     SyncDaemon._fill_location_info path event st = (SyncDaemon.Ok enriched, st')
     /\ SyncDaemon.cache_ok st'
     /\ dict_get "severity" enriched = dict_get "severity" event
     /\ (forall severity,
           dict_get "severity" event = VInt severity -> (1 <= severity)%Z ->
           dict_get "severity" enriched = VInt severity /\ (1 <= severity)%Z)
     /\ forall k, ~ In k SyncDaemon.geo_keys ->
                  dict_get k enriched = dict_get k event).
Proof.
  intros Hc Hh. split; [|split].
  - intros produced Hin.
    pose proof (process_sessions_fields lower uuid4 sessions) as H.
    rewrite Forall_forall in H. exact (H produced Hin).
  - intros events produced Hp Hin.
    destruct input_file as [lines|]; [|discriminate].
    cbn [Parser.parse_cowrie_logs] in Hp. injection Hp as <-.
    pose proof (process_sessions_fields lower uuid4
                  (Parser.group_lines lines [])) as H.
    rewrite Forall_forall in H. exact (H produced Hin).
  - destruct (fill_frame path event st Hc Hh) as (e' & st' & Hf & Hc' & Hfr).
    assert (Hsev : dict_get "severity" e' = dict_get "severity" event).
    { apply Hfr. unfold SyncDaemon.geo_keys. simpl.
      intros [H|[H|[H|[]]]]; discriminate. }
    exists e', st'. split; [exact Hf|]. split; [exact Hc'|].
    split; [exact Hsev|]. split; [|exact Hfr].
    intros severity Hs Hge. split; [congruence|exact Hge].
Qed.

(** *** Runs on sample inputs *)

Section DaemonRuns.

Import SyncDaemon.

(** C2, as stated, fails: with the database file missing, the lookup of a
    second address checks for the file again; with a malformed file, it also
    tries to open it again. *)
Lemma resolve_probes_file_again :
  let first := _get_location_for_ip Examples.geoip_path (VStr "203.0.113.7")
                 Examples.no_db_state in
  let second := _get_location_for_ip Examples.geoip_path (VStr "198.51.100.9")
                  (snd first) in
  let first' := _get_location_for_ip Examples.geoip_path (VStr "203.0.113.7")
                  Examples.bad_db_state in
  let second' := _get_location_for_ip Examples.geoip_path (VStr "198.51.100.9")
                   (snd first') in
  fst first = Ok None /\ fst second = Ok None /\
  probes (trace (snd first)) = 1%nat /\ probes (trace (snd second)) = 2%nat /\
  trace (snd second) =
    trace (snd first) ++ [PathExists "GeoLite2-City.mmdb"; Print MsgDbNotFound]
  /\
  probes (trace (snd first')) = 2%nat /\ probes (trace (snd second')) = 4%nat /\
  trace (snd second') =
    trace (snd first') ++ [PathExists "GeoLite2-City.mmdb";
                           OpenDatabase "GeoLite2-City.mmdb";
                           Print MsgDbInvalid].
Proof. vm_compute. repeat split. Qed.

Lemma resolve_database_unavailable_witness :
  (cache_find (Bare (KStr "203.0.113.7")) (cache Examples.no_db_state) = None ->
   exists st',
     _get_location_for_ip Examples.geoip_path (VStr "203.0.113.7")
       Examples.no_db_state = (Ok None, st') /\
     trace st' = trace Examples.no_db_state
                 ++ failed_open_trace Examples.geoip_path
                      (geoip_db Examples.no_db_state) /\
     (path_unset Examples.geoip_path = false ->
      (probes (trace Examples.no_db_state) < probes (trace st'))%nat) /\
     _geoip_reader st' = None /\
     geoip_db st' = geoip_db Examples.no_db_state /\
     cache_find (Bare (KStr "203.0.113.7")) (cache st') = Some None) /\
  (forall v,
     cache_find (Bare (KStr "203.0.113.7")) (cache Examples.no_db_state) = Some v ->
     exists st',
       _get_location_for_ip Examples.geoip_path (VStr "203.0.113.7")
         Examples.no_db_state = (Ok v, st') /\
       trace st' = trace Examples.no_db_state /\
       _geoip_reader st' = None /\
       geoip_db st' = geoip_db Examples.no_db_state /\
       cache_find (Bare (KStr "203.0.113.7")) (cache st') = Some v).
Proof.
  apply (resolve_database_unavailable Examples.geoip_path
           (VStr "203.0.113.7") (Bare (KStr "203.0.113.7")) Examples.no_db_state).
  - reflexivity.
  - reflexivity.
  - reflexivity.
Defined.

(** C3, as stated, fails: with the database file missing, the record that
    lacks a location is published with its country changed from "N/A" to
    "Unknown". *)
Lemma sync_once_overwrites_country :
  let run := _sync_once Examples.geoip_path Examples.local_path
               Examples.insertion_order (S3Json (VList Examples.fetched))
               Examples.no_db_state in
  fst run = Ok 1%Z /\
  local_events (snd run) =
    Some (JsonDump
            (VList [VDict (dict_set "country" (VStr "Unknown")
                             Examples.pending_event);
                    VDict Examples.located_event])) /\
  field "country" (VDict Examples.pending_event) = VStr "N/A" /\
  field "country"
    (VDict (dict_set "country" (VStr "Unknown") Examples.pending_event))
  = VStr "Unknown".
Proof. vm_compute. repeat split. Qed.

(** C4, as stated, fails: a database record that names a country and holds no
    coordinates leaves the enriched event with a country and without
    latitude and longitude. *)
Lemma fill_location_info_country_only :
  let run := _fill_location_info Examples.geoip_path Examples.pending_event
               Examples.country_db_state in
  exists event,
    fst run = Ok event /\
    dict_get "lat" event = VNone /\
    dict_get "lon" event = VNone /\
    dict_get "country" event = VStr "South Korea" /\
    geo_all_or_none event = false.
Proof. eexists. vm_compute. repeat split. Qed.

Lemma loop_iteration_fetch_failure_witness :
  exists st',
    loop_iteration Examples.geoip_path Examples.local_path 60%Z
      Examples.insertion_order S3ClientError Examples.no_db_state
    = (Ok tt, st') /\
    fst (_sync_once Examples.geoip_path Examples.local_path
           Examples.insertion_order S3ClientError Examples.no_db_state)
    = Ok 0%Z /\
    local_events st' = local_events Examples.no_db_state /\
    trace st' = trace Examples.no_db_state
                ++ [Print (failure_message S3ClientError);
                    Print (MsgSyncDone 0); Wait 60%Z] /\
    forall rest,
      loop_turns Examples.geoip_path Examples.local_path 60%Z
        Examples.insertion_order ((S3ClientError, false) :: rest)
        Examples.no_db_state
      = loop_turns Examples.geoip_path Examples.local_path 60%Z
          Examples.insertion_order rest st'.
Proof.
  apply (loop_iteration_fetch_failure Examples.geoip_path Examples.local_path
           60%Z Examples.insertion_order S3ClientError Examples.no_db_state).
  reflexivity.
Defined.

Lemma sync_once_nothing_to_publish_witness :
  _sync_once Examples.geoip_path Examples.local_path Examples.insertion_order
    (S3Json (VStr "maintenance")) Examples.no_db_state
  = (Ok 0%Z, Examples.no_db_state).
Proof.
  apply (sync_once_nothing_to_publish Examples.geoip_path Examples.local_path
           Examples.insertion_order (VStr "maintenance") Examples.no_db_state).
  right. reflexivity.
Defined.

End DaemonRuns.

Lemma event_severity_and_enrichment_frame_witness :
  (forall produced,
     In produced (Parser.process_sessions str_lower_ascii Examples.uuid_of
                    [("a1b2c3", Examples.recon_then_miner);
                     ("ffee01", Examples.telnet_session)]) ->
     (exists severity, dict_get "severity" produced = VInt severity
                       /\ (1 <= severity <= 4)%Z) /\
     dict_get "lat" produced = VNone /\
     dict_get "lon" produced = VNone /\
     dict_get "country" produced = VStr "N/A") /\
  (forall events produced,
     Parser.parse_cowrie_logs str_lower_ascii Examples.uuid_of
       (Some Examples.log_lines) = Some events ->
     In produced events ->
     (exists severity, dict_get "severity" produced = VInt severity
                       /\ (1 <= severity <= 4)%Z) /\
     dict_get "lat" produced = VNone /\
     dict_get "lon" produced = VNone /\
     dict_get "country" produced = VStr "N/A") /\
  (exists enriched st',
     SyncDaemon._fill_location_info Examples.geoip_path Examples.pending_event
       Examples.country_db_state = (SyncDaemon.Ok enriched, st')
     /\ SyncDaemon.cache_ok st'
     /\ dict_get "severity" enriched = dict_get "severity" Examples.pending_event
     /\ (forall severity,
           dict_get "severity" Examples.pending_event = VInt severity ->
           (1 <= severity)%Z ->
           dict_get "severity" enriched = VInt severity /\ (1 <= severity)%Z)
     /\ forall k, ~ In k SyncDaemon.geo_keys ->
                  dict_get k enriched = dict_get k Examples.pending_event).
Proof.
  apply (event_severity_and_enrichment_frame str_lower_ascii Examples.uuid_of
           [("a1b2c3", Examples.recon_then_miner);
            ("ffee01", Examples.telnet_session)]
           (Some Examples.log_lines) Examples.geoip_path
           Examples.pending_event Examples.country_db_state).
  - apply Forall_nil.
  - intros _. reflexivity.
Defined.

(** * Further properties *)

(** ** The classifier, case by case *)

Section ClassifierCases.

Import Parser.

Variable lower : string -> string.

Lemma check_commands_none (commands : list string) :
  (forall cmd, In cmd commands -> has_signature cmd = false) ->
  check_commands commands = None.
Proof.
  intros H. rewrite <- (app_nil_r commands).
  now rewrite check_commands_skip.
Qed.

Lemma commands_of_In (logs : list LogEntry) (cmd : string) :
  In cmd (commands_of lower logs) ->
  exists l, In l logs /\ is_event "cowrie.command.input" l = true
            /\ cmd = command_text lower l.
Proof.
  unfold commands_of. intros H. apply in_map_iff in H.
  destruct H as [l [<- Hl]]. apply filter_In in Hl.
  exists l. tauto.
Qed.

(** X1: a session without any login entry is a [scan] of severity 1, whatever
    else it holds. *)
Theorem analyze_session_scan (logs : list LogEntry) :
  has_event "cowrie.login.success" logs = false ->
  has_event "cowrie.login.failed" logs = false ->
  analyze_session lower logs = ("scan", 1%Z).
Proof.
  intros Hs Hf. now rewrite analyze_session_spec, Hs, Hf.
Qed.

(** X2: a session with a successful login in which no command carries a
    signature is a [reconnaissance] of severity 2, failed logins or not. *)
Theorem analyze_session_reconnaissance (logs : list LogEntry) :
  has_event "cowrie.login.success" logs = true ->
  (forall l, In l logs -> is_event "cowrie.command.input" l = true ->
             has_signature (command_text lower l) = false) ->
  analyze_session lower logs = ("reconnaissance", 2%Z).
Proof.
  intros Hs Hc. rewrite analyze_session_spec, Hs.
  rewrite check_commands_none; [reflexivity|].
  intros cmd Hin. apply commands_of_In in Hin.
  destruct Hin as (l & Hl & Hk & ->). now apply Hc.
Qed.

Lemma analyze_session_first_signature (before after : list LogEntry)
    (log : LogEntry) :
  has_event "cowrie.login.success" (before ++ log :: after) = true ->
  is_event "cowrie.command.input" log = true ->
  (forall l, In l before -> is_event "cowrie.command.input" l = true ->
             has_signature (command_text lower l) = false) ->
  analyze_session lower (before ++ log :: after) =
  match check_commands (command_text lower log :: commands_of lower after) with
  | Some r => r
  | None => ("reconnaissance", 2%Z)
  end.
Proof.
  intros Hs Hc Hbefore.
  rewrite analyze_session_spec, Hs, commands_of_app, check_commands_skip.
  - rewrite commands_of_cons. unfold is_event in Hc. now rewrite Hc.
  - intros cmd Hin. apply commands_of_In in Hin.
    destruct Hin as (l & Hl & Hk & ->). now apply Hbefore.
Qed.

(** X3: after a successful login, when the first command that carries a
    signature has "/ip cloud print" and not "miner", the session is a
    [mikrotik-recon] of severity 3, whatever the later commands are. *)
Theorem analyze_session_mikrotik (before after : list LogEntry)
    (log : LogEntry) :
  has_event "cowrie.login.success" (before ++ log :: after) = true ->
  is_event "cowrie.command.input" log = true ->
  (forall l, In l before -> is_event "cowrie.command.input" l = true ->
             has_signature (command_text lower l) = false) ->
  str_in "miner" (command_text lower log) = false ->
  str_in "/ip cloud print" (command_text lower log) = true ->
  analyze_session lower (before ++ log :: after) = ("mikrotik-recon", 3%Z).
Proof.
  intros Hs Hc Hbefore Hm Hp.
  rewrite (analyze_session_first_signature _ _ _ Hs Hc Hbefore).
  simpl. now rewrite Hm, Hp.
Qed.

(** X4: after a successful login, when the first command that carries a
    signature has "telegramdesktop" or "smsd" and neither "miner" nor
    "/ip cloud print", the session is an [info-gathering] of severity 3. *)
Theorem analyze_session_info_gathering (before after : list LogEntry)
    (log : LogEntry) :
  has_event "cowrie.login.success" (before ++ log :: after) = true ->
  is_event "cowrie.command.input" log = true ->
  (forall l, In l before -> is_event "cowrie.command.input" l = true ->
             has_signature (command_text lower l) = false) ->
  str_in "miner" (command_text lower log) = false ->
  str_in "/ip cloud print" (command_text lower log) = false ->
  str_in "telegramdesktop" (command_text lower log)
  || str_in "smsd" (command_text lower log) = true ->
  analyze_session lower (before ++ log :: after) = ("info-gathering", 3%Z).
Proof.
  intros Hs Hc Hbefore Hm Hp Ht.
  rewrite (analyze_session_first_signature _ _ _ Hs Hc Hbefore).
  simpl. now rewrite Hm, Hp, Ht.
Qed.

Lemma has_event_filter (name : string) (keep : LogEntry -> bool)
    (logs : list LogEntry) :
  (forall l, is_event name l = true -> keep l = true) ->
  has_event name (filter keep logs) = has_event name logs.
Proof.
  intros Hk. induction logs as [|l logs IH]; [reflexivity|].
  cbn [filter]. destruct (keep l) eqn:E.
  - rewrite !has_event_cons. now rewrite IH.
  - rewrite has_event_cons, IH.
    destruct (eq_str (eventid l) name) eqn:En; [|reflexivity].
    rewrite (Hk l En) in E. discriminate.
Qed.

Lemma commands_of_filter (keep : LogEntry -> bool) (logs : list LogEntry) :
  (forall l, is_event "cowrie.command.input" l = true -> keep l = true) ->
  commands_of lower (filter keep logs) = commands_of lower logs.
Proof.
  intros Hk. induction logs as [|l logs IH]; [reflexivity|].
  cbn [filter]. destruct (keep l) eqn:E.
  - rewrite !commands_of_cons. now rewrite IH.
  - rewrite commands_of_cons, IH.
    destruct (eq_str (eventid l) "cowrie.command.input") eqn:En; [|reflexivity].
    rewrite (Hk l En) in E. discriminate.
Qed.

(** X5: the classification looks at logins and commands only: dropping every
    other entry of a session (connect, close, key exchange, ...) leaves the
    result as it is. *)
Theorem analyze_session_ignores_other_events (logs : list LogEntry) :
  analyze_session lower (filter classifier_event logs)
  = analyze_session lower logs.
Proof.
  rewrite !analyze_session_spec.
  rewrite !has_event_filter, commands_of_filter; [reflexivity| | |];
    intros l Hl; unfold classifier_event; rewrite Hl;
    now rewrite ?orb_true_r.
Qed.

Lemma check_commands_outcomes (commands : list string) (r : string * Z) :
  check_commands commands = Some r -> In r outcomes.
Proof.
  induction commands as [|c commands IH]; simpl; [discriminate|].
  destruct (str_in "miner" c); [intros [= <-]; simpl; tauto|].
  destruct (str_in "/ip cloud print" c); [intros [= <-]; simpl; tauto|].
  destruct (str_in "telegramdesktop" c || str_in "smsd" c);
    [intros [= <-]; simpl; tauto|].
  exact IH.
Qed.

(** X6: whatever the session, the result is one of six pairs of label and
    severity; the severity is fixed by the label. *)
Theorem analyze_session_outcomes (logs : list LogEntry) :
  In (analyze_session lower logs) outcomes.
Proof.
  rewrite analyze_session_spec.
  destruct (has_event "cowrie.login.success" logs).
  - destruct (check_commands (commands_of lower logs)) as [r|] eqn:E.
    + now apply check_commands_outcomes in E.
    + simpl. tauto.
  - destruct (has_event "cowrie.login.failed" logs); simpl; tauto.
Qed.

End ClassifierCases.

(** ** Grouping, sorting and emitting *)

Section SessionProperties.

Import Parser.

Variable lower : string -> string.
Variable uuid4 : nat -> string.

Lemma sessions_lookup_append (sid sid' : string) (log : LogEntry)
    (sessions : list (string * list LogEntry)) :
  sessions_lookup sid (sessions_append sid' log sessions) =
  if (sid' =? sid)%string then
    Some (match sessions_lookup sid sessions with
          | Some logs => logs ++ [log]
          | None => [log]
          end)
  else sessions_lookup sid sessions.
Proof.
  induction sessions as [|[k logs] sessions IH]; simpl.
  - destruct (sid' =? sid)%string; reflexivity.
  - destruct (k =? sid')%string eqn:Ek.
    + apply String.eqb_eq in Ek. subst k. simpl.
      destruct (sid' =? sid)%string; reflexivity.
    + simpl. destruct (k =? sid)%string eqn:Es.
      * apply String.eqb_eq in Es. subst k.
        rewrite String.eqb_sym in Ek. now rewrite Ek.
      * exact IH.
Qed.

Lemma group_lines_lookup (sid : string) (lines : list (option LogEntry)) :
  sid <> "" ->
  forall sessions,
    sessions_lookup sid (group_lines lines sessions) =
    match sessions_lookup sid sessions, lines_of_session sid lines with
    | Some logs, extra => Some (logs ++ extra)
    | None, [] => None
    | None, extra => Some extra
    end.
Proof.
  intros Hsid.
  induction lines as [|[log|] lines IH]; intros sessions; cbn [group_lines
    lines_of_session].
  - destruct (sessions_lookup sid sessions); [now rewrite app_nil_r|reflexivity].
  - destruct (session log) as [k|]; [|apply IH].
    destruct (k =? "")%string eqn:Ee; cbn [negb].
    + apply String.eqb_eq in Ee. subst k.
      destruct ("" =? sid)%string eqn:E; [|apply IH].
      apply String.eqb_eq in E. congruence.
    + rewrite IH, sessions_lookup_append.
      destruct (k =? sid)%string.
      * destruct (sessions_lookup sid sessions) as [logs|].
        -- now rewrite <- app_assoc.
        -- reflexivity.
      * reflexivity.
  - apply IH.
Qed.

(** X7: grouping loses and reorders nothing within a session: the entries filed
    under a non-empty session id are the decoded lines that carry that id, in
    the order of the file; an id that no line carries has no session. Lines
    that are not JSON are skipped without disturbing the rest. *)
Theorem group_lines_session (sid : string) (lines : list (option LogEntry)) :
  sid <> "" ->
  sessions_lookup sid (group_lines lines []) =
  match lines_of_session sid lines with
  | [] => None
  | logs => Some logs
  end.
Proof.
  intros Hsid. rewrite (group_lines_lookup sid lines Hsid []). reflexivity.
Qed.

Lemma sessions_append_keys (sid : string) (log : LogEntry)
    (sessions : list (string * list LogEntry)) :
  map fst (sessions_append sid log sessions) =
  if existsb (fun k => (k =? sid)%string) (map fst sessions)
  then map fst sessions
  else map fst sessions ++ [sid].
Proof.
  induction sessions as [|[k logs] sessions IH]; simpl; [reflexivity|].
  destruct (k =? sid)%string eqn:E; simpl; [reflexivity|].
  rewrite IH.
  now destruct (existsb (fun k0 => (k0 =? sid)%string) (map fst sessions)).
Qed.

Lemma sessions_append_wf (sid : string) (log : LogEntry)
    (sessions : list (string * list LogEntry)) :
  sid <> "" -> sessions_wf sessions ->
  sessions_wf (sessions_append sid log sessions).
Proof.
  intros Hsid [Hnd Hne]. split.
  - rewrite sessions_append_keys.
    destruct (existsb (fun k => (k =? sid)%string) (map fst sessions)) eqn:E;
      [exact Hnd|].
    apply NoDup_app; [exact Hnd | repeat constructor; auto |].
    intros k Hin [Heq|[]]. subst k.
    assert (existsb (fun k0 => (k0 =? sid)%string) (map fst sessions) = true).
    { apply existsb_exists. exists sid.
      split; [exact Hin|apply String.eqb_refl]. }
    congruence.
  - induction Hne as [|[k logs] sessions [Hk Hl] Hrest IH]; simpl.
    + repeat constructor; auto. discriminate.
    + inversion Hnd; subst.
      destruct (k =? sid)%string.
      * constructor; [|exact Hrest]. split; [exact Hk|].
        simpl. now destruct logs.
      * constructor; [now split|]. now apply IH.
Qed.

Lemma group_lines_wf (lines : list (option LogEntry)) :
  forall sessions, sessions_wf sessions ->
                   sessions_wf (group_lines lines sessions).
Proof.
  induction lines as [|[log|] lines IH]; intros sessions Hwf; cbn [group_lines];
    auto.
  destruct (session log) as [k|]; auto.
  destruct (k =? "")%string eqn:E; cbn [negb]; auto.
  apply IH, sessions_append_wf; [|exact Hwf].
  now apply String.eqb_neq.
Qed.

(** X8: the grouped sessions have pairwise distinct, non-empty ids, and none
    of them is empty. *)
Theorem group_lines_sessions (lines : list (option LogEntry)) :
  NoDup (map fst (group_lines lines [])) /\
  Forall (fun entry => fst entry <> "" /\ snd entry <> [])
    (group_lines lines []).
Proof.
  apply group_lines_wf. split; constructor.
Qed.

Lemma insert_log_ascending (x : LogEntry) (l : list LogEntry) :
  ascending l -> ascending (insert_log x l).
Proof.
  induction l as [|y l IH]; simpl.
  - intros _. split; [intros z []|exact I].
  - intros [Hy Hl].
    destruct (sort_key x <=? sort_key y)%string eqn:E.
    + simpl. repeat split; auto.
      intros z [<-|Hz]; [exact E|].
      eapply string_leb_trans; [exact E | now apply Hy].
    + simpl. split; [|now apply IH].
      intros z Hz.
      apply (Permutation_in _ (insert_log_perm x l)) in Hz.
      destruct Hz as [<-|Hz]; [|now apply Hy].
      destruct (String.leb_total (sort_key x) (sort_key y)) as [H|H];
        congruence.
Qed.

(** X9: the sort puts the entries of a session in ascending order of their
    timestamps and neither drops nor adds an entry. *)
Theorem sort_logs_sorted (l : list LogEntry) :
  ascending (sort_logs l) /\ Permutation (sort_logs l) l.
Proof.
  split; [|apply sort_logs_perm].
  induction l as [|x l IH]; simpl; [exact I|].
  now apply insert_log_ascending.
Qed.

Lemma insert_log_with_key (k : string) (x : LogEntry) (l : list LogEntry) :
  with_key k (insert_log x l) = with_key k (x :: l).
Proof.
  unfold with_key. induction l as [|y l IH]; [reflexivity|].
  cbn [insert_log].
  destruct (sort_key x <=? sort_key y)%string eqn:E; [reflexivity|].
  cbn [filter] in *. rewrite IH.
  destruct (sort_key x =? k)%string eqn:Ex;
    destruct (sort_key y =? k)%string eqn:Ey; try reflexivity.
  apply String.eqb_eq in Ex, Ey.
  rewrite Ex, Ey, string_leb_refl in E. discriminate.
Qed.

(** X10: the sort is stable: entries with the same timestamp stay in the order
    in which the file has them. *)
Theorem sort_logs_stable (k : string) (l : list LogEntry) :
  with_key k (sort_logs l) = with_key k l.
Proof.
  induction l as [|x l IH]; [reflexivity|].
  cbn [sort_logs]. rewrite insert_log_with_key.
  unfold with_key in *. cbn [filter]. now rewrite IH.
Qed.

Lemma process_session_rejected (output_events : list pydict)
    (sid : string) (logs : list LogEntry) :
  starts_with_connect logs = false ->
  process_session lower uuid4 output_events (sid, logs) = output_events.
Proof.
  unfold starts_with_connect.
  destruct (sort_logs logs) as [|first_log rest] eqn:Es.
  - intros _. assert (logs = []) as ->; [|reflexivity].
    pose proof (sort_logs_perm logs) as H. rewrite Es in H.
    now apply Permutation_nil in H.
  - intros Hc.
    rewrite (process_session_sorted lower uuid4 output_events sid logs _ _ Es).
    now rewrite Hc.
Qed.

Lemma process_session_accepted (output_events : list pydict)
    (sid : string) (logs : list LogEntry) :
  starts_with_connect logs = true ->
  exists event,
    process_session lower uuid4 output_events (sid, logs)
    = output_events ++ [event] /\
    dict_get "id" event = VStr (uuid4 (List.length output_events)).
Proof.
  unfold starts_with_connect.
  destruct (sort_logs logs) as [|first_log rest] eqn:Es; [discriminate|].
  intros Hc.
  rewrite (process_session_sorted lower uuid4 output_events sid logs _ _ Es).
  rewrite Hc. eexists. split; reflexivity.
Qed.

Lemma process_sessions_from (sessions : list (string * list LogEntry)) :
  forall output_events,
  exists new,
    fold_left (process_session lower uuid4) sessions output_events
    = output_events ++ new /\
    map (dict_get "id") new =
    map (fun n => VStr (uuid4 n))
      (seq (List.length output_events)
         (count_if (fun entry => starts_with_connect (snd entry)) sessions)).
Proof.
  unfold count_if.
  induction sessions as [|[sid logs] sessions IH]; intros out.
  - exists []. split; [now rewrite app_nil_r|reflexivity].
  - cbn [fold_left filter snd].
    destruct (starts_with_connect logs) eqn:Ec.
    + destruct (process_session_accepted out sid logs Ec) as (ev & -> & Hid).
      destruct (IH (out ++ [ev])) as (new & -> & Hids).
      exists (ev :: new). split; [now rewrite <- app_assoc|].
      cbn [map List.length seq]. rewrite Hid. f_equal.
      rewrite Hids, length_app. cbn [List.length].
      now rewrite Nat.add_1_r.
    + rewrite (process_session_rejected out sid logs Ec). apply IH.
Qed.

(** X11: the run emits one event for each session whose earliest entry is a
    connect event and none for the others; the events carry the identifiers
    drawn by the successive calls of [uuid4], in the order of the sessions. *)
Theorem process_sessions_events (sessions : list (string * list LogEntry)) :
  let accepted :=
    count_if (fun entry => starts_with_connect (snd entry)) sessions in
  List.length (process_sessions lower uuid4 sessions) = accepted /\
  map (dict_get "id") (process_sessions lower uuid4 sessions)
  = map (fun n => VStr (uuid4 n)) (seq 0 accepted).
Proof.
  cbv zeta. unfold process_sessions.
  destruct (process_sessions_from sessions []) as (new & -> & Hids).
  cbn [app List.length] in *. split; [|exact Hids].
  rewrite <- (length_map (dict_get "id")), Hids, length_map.
  apply length_seq.
Qed.


End SessionProperties.

(** ** Lookups *)

Section LookupProperties.

Import SyncDaemon.

Variable _GEOIP_DB_PATH : option string.

Local Abbreviation resolve := (_get_location_for_ip _GEOIP_DB_PATH).

Ltac run :=
  unfold bind, ret, raise, emit, set_reader, set_cache, set_local_events;
  cbn [fst snd _geoip_reader cache geoip_db local_events trace].

Lemma cache_key_eqb_eq (a b : cache_key) : cache_key_eqb a b = true <-> a = b.
Proof.
  split.
  - destruct a, b; simpl; try discriminate; intros H;
      apply hkey_eqb_eq in H; now subst.
  - intros ->. apply cache_key_eqb_refl.
Qed.

Lemma hashable_make_key (ip : value) :
  hashable ip = true <-> exists k, make_key ip = Some k.
Proof.
  unfold hashable. split.
  - destruct (hash_key ip) as [hk|] eqn:E; [|discriminate].
    intros _. exact (hash_key_make_key ip hk E).
  - intros [k Hk]. unfold make_key in Hk.
    destruct ip; simpl in *; try reflexivity; discriminate.
Qed.

(** Whatever the state, a lookup that returns leaves the files alone; the
    result of a miss is that of the body. *)
Lemma resolve_files (ip : value) (st : state) :
  local_events (snd (resolve ip st)) = local_events st /\
  geoip_db (snd (resolve ip st)) = geoip_db st.
Proof.
  destruct (make_key ip) as [k|] eqn:Hk.
  - destruct (cache_find k (cache st)) as [v|] eqn:Hc.
    + rewrite (resolve_hit _GEOIP_DB_PATH ip k v st Hk Hc). now split.
    + destruct (resolve_miss _GEOIP_DB_PATH ip k st Hk Hc) as (v & st1 & Hl & ->).
      destruct (locate_outcome _GEOIP_DB_PATH ip st)
        as (v' & st1' & Hl' & _ & Hf & Hd & _).
      rewrite Hl in Hl'. injection Hl' as <- <-. now split.
  - unfold _get_location_for_ip. rewrite Hk. now split.
Qed.


Lemma cache_find_None_keys (k : cache_key)
    (c : list (cache_key * option pydict)) :
  cache_find k c = None -> ~ In k (map fst c).
Proof.
  induction c as [|[k' v] c IH]; simpl; [tauto|].
  destruct (cache_key_eqb k' k) eqn:E; [discriminate|].
  intros Hc [->|Hin]; [|now apply IH].
  rewrite cache_key_eqb_refl in E. discriminate.
Qed.

Lemma cache_remove_keys (k : cache_key)
    (c : list (cache_key * option pydict)) :
  ~ In k (map fst (cache_remove k c)) /\
  (forall k', In k' (map fst (cache_remove k c)) -> In k' (map fst c)) /\
  (NoDup (map fst c) -> NoDup (map fst (cache_remove k c))).
Proof.
  induction c as [|[k' v] c (IH1 & IH2 & IH3)]; simpl.
  - repeat split; auto; constructor.
  - destruct (cache_key_eqb k' k) eqn:E.
    + repeat split; auto. intros H. inversion H; auto.
    + simpl. repeat split.
      * intros [->|Hin]; [|tauto].
        rewrite cache_key_eqb_refl in E. discriminate.
      * intros k'' [->|Hin]; auto.
      * intros H. inversion H; subst. constructor; auto.
Qed.

Lemma cache_remove_length (k : cache_key) (v : option pydict)
    (c : list (cache_key * option pydict)) :
  cache_find k c = Some v ->
  (S (List.length (cache_remove k c)) <= List.length c)%nat.
Proof.
  induction c as [|[k' v'] c IH]; simpl; [discriminate|].
  destruct (cache_key_eqb k' k) eqn:E.
  - intros _. clear IH.
    assert (List.length (cache_remove k c) <= List.length c)%nat; [|lia].
    induction c as [|[k'' v''] c IH]; simpl; [lia|].
    destruct (cache_key_eqb k'' k); simpl; lia.
  - intros H. specialize (IH H). simpl. lia.
Qed.

Lemma firstn_keys_NoDup {A B : Type} (n : nat) (c : list (A * B)) :
  NoDup (map fst c) -> NoDup (map fst (firstn n c)).
Proof.
  revert n. induction c as [|x c IH]; intros [|n] H; simpl; try constructor.
  - inversion H; subst. intros Hin. apply H2.
    apply in_map_iff in Hin. destruct Hin as (y & Hy & Hin).
    apply in_map_iff. exists y. split; [exact Hy|].
    clear - Hin. revert n Hin. induction c as [|z c IH]; intros [|n]; simpl;
      try tauto. intros [->|H]; eauto.
  - inversion H; subst. now apply IH.
Qed.

Lemma firstn_keys_In {A B : Type} (n : nat) (c : list (A * B)) (k : A) :
  In k (map fst (firstn n c)) -> In k (map fst c).
Proof.
  revert n. induction c as [|x c IH]; intros [|n]; simpl; try tauto.
  intros [->|H]; eauto.
Qed.

(** X13: the cache stays within its bound: a lookup that starts with at most
    4096 entries under distinct keys ends with at most 4096 entries under
    distinct keys, whether it hits, misses or raises. *)
Theorem resolve_cache_bounded (ip : value) (st : state) :
  cache_bounded st -> cache_bounded (snd (resolve ip st)).
Proof.
  intros [Hlen Hnd]. unfold cache_bounded.
  destruct (make_key ip) as [k|] eqn:Hk.
  - destruct (cache_find k (cache st)) as [v|] eqn:Hc.
    + rewrite (resolve_hit _GEOIP_DB_PATH ip k v st Hk Hc). cbn [snd cache map fst].
      pose proof (cache_remove_length k v _ Hc).
      destruct (cache_remove_keys k (cache st)) as (Hn & _ & Hd).
      split; [cbn [List.length]; lia|]. constructor; auto.
    + destruct (resolve_miss _GEOIP_DB_PATH ip k st Hk Hc) as (v & st1 & Hl & ->).
      cbn [snd cache map fst List.length]. split.
      * pose proof (firstn_le_length (Nat.pred maxsize) (cache st)).
        unfold maxsize in *. simpl Nat.pred in *. lia.
      * constructor; [|now apply firstn_keys_NoDup].
        intros Hin. apply firstn_keys_In in Hin.
        now apply (cache_find_None_keys k (cache st) Hc).
  - unfold _get_location_for_ip. rewrite Hk. now split.
Qed.

Lemma opens_app (t u : list io) : opens (t ++ u) = (opens t + opens u)%nat.
Proof. unfold opens. now rewrite filter_app, length_app. Qed.

Ltac count_io :=
  simpl; unfold probes, queries, opens;
  rewrite ?filter_app, ?length_app; simpl; lia.

Lemma locate_held (ip : value) (r : reader) (st : state) :
  _geoip_reader st = Some r ->
  _geoip_reader (snd (locate _GEOIP_DB_PATH ip st)) = Some r /\
  probes (trace (snd (locate _GEOIP_DB_PATH ip st))) = probes (trace st).
Proof.
  destruct st as [rd c db file t]. cbn [_geoip_reader trace]. intros ->.
  unfold locate, _get_geoip_reader. run.
  destruct (truthy ip); run; [|now split].
  destruct (r ip) as [|m]; run;
    [|destruct (truthy m); run;
      [destruct (location_of_match m); run|]];
    (split; [reflexivity|]); count_io.
Qed.

Lemma resolve_held (ip : value) (r : reader) (st : state) :
  _geoip_reader st = Some r ->
  _geoip_reader (snd (resolve ip st)) = Some r /\
  probes (trace (snd (resolve ip st))) = probes (trace st).
Proof.
  intros Hr.
  destruct (make_key ip) as [k|] eqn:Hk.
  - destruct (cache_find k (cache st)) as [v|] eqn:Hc.
    + rewrite (resolve_hit _GEOIP_DB_PATH ip k v st Hk Hc). now split.
    + destruct (resolve_miss _GEOIP_DB_PATH ip k st Hk Hc)
        as (v & st1 & Hl & ->).
      pose proof (locate_held ip r st Hr) as H. rewrite Hl in H. exact H.
  - unfold _get_location_for_ip. rewrite Hk. now split.
Qed.

(** X14: once a reader is held, no sequence of lookups touches the database
    file again, whatever has become of the file: the lookups are served by the
    reader in memory, which stays the one held. *)
Theorem lookup_all_reader_held (ips : list value) (r : reader) (st : state) :
  _geoip_reader st = Some r ->
  _geoip_reader (snd (lookup_all _GEOIP_DB_PATH ips st)) = Some r /\
  probes (trace (snd (lookup_all _GEOIP_DB_PATH ips st))) = probes (trace st).
Proof.
  revert st. induction ips as [|ip ips IH]; intros st Hr; [now split|].
  cbn [lookup_all]. unfold bind.
  destruct (resolve_held ip r st Hr) as [Hr1 Hp1].
  destruct (resolve ip st) as [[v|e] st1]; cbn [snd] in *.
  - destruct (IH st1 Hr1) as [Hr2 Hp2]. split; congruence.
  - now split.
Qed.

Lemma locate_valid (ip : value) (r : reader) (st : state) :
  geoip_db st = Valid r ->
  let st' := snd (locate _GEOIP_DB_PATH ip st) in
  geoip_db st' = Valid r /\
  (opens (trace st')
   + match _geoip_reader st' with Some _ => 0 | None => 1 end
   <= opens (trace st)
      + match _geoip_reader st with Some _ => 0 | None => 1 end)%nat.
Proof.
  destruct st as [rd c db file t]. cbn [geoip_db _geoip_reader trace].
  intros ->. cbv zeta. unfold locate, _get_geoip_reader. run.
  destruct rd as [r'|]; [|destruct _GEOIP_DB_PATH as [p|];
                           [destruct (p =? "")%string|]];
    run;
    try (destruct (truthy ip); run;
         [match goal with
          | |- context [match ?f ip with _ => _ end] =>
              destruct (f ip) as [|m]; run;
              [|destruct (truthy m); run;
                [destruct (location_of_match m); run|]]
          end|]);
    (split; [reflexivity|]); count_io.
Qed.

Lemma resolve_valid (ip : value) (r : reader) (st : state) :
  geoip_db st = Valid r ->
  let st' := snd (resolve ip st) in
  geoip_db st' = Valid r /\
  (opens (trace st')
   + match _geoip_reader st' with Some _ => 0 | None => 1 end
   <= opens (trace st)
      + match _geoip_reader st with Some _ => 0 | None => 1 end)%nat.
Proof.
  intros Hdb. cbv zeta.
  destruct (make_key ip) as [k|] eqn:Hk.
  - destruct (cache_find k (cache st)) as [v|] eqn:Hc.
    + rewrite (resolve_hit _GEOIP_DB_PATH ip k v st Hk Hc).
      cbn [snd geoip_db trace _geoip_reader]. split; [exact Hdb|lia].
    + destruct (resolve_miss _GEOIP_DB_PATH ip k st Hk Hc)
        as (v & st1 & Hl & ->).
      pose proof (locate_valid ip r st Hdb) as H. rewrite Hl in H. exact H.
  - unfold _get_location_for_ip. rewrite Hk. cbn [raise snd].
    split; [exact Hdb|lia].
Qed.

(** X15: with a database on disk, the file is opened at most once over any
    sequence of lookups, and not at all when a reader is already held. *)
Theorem lookup_all_opens_once (ips : list value) (r : reader) (st : state) :
  geoip_db st = Valid r ->
  (opens (trace (snd (lookup_all _GEOIP_DB_PATH ips st)))
   <= opens (trace st)
      + match _geoip_reader st with Some _ => 0 | None => 1 end)%nat.
Proof.
  intros Hdb.
  enough (H : geoip_db (snd (lookup_all _GEOIP_DB_PATH ips st)) = Valid r /\
              (opens (trace (snd (lookup_all _GEOIP_DB_PATH ips st)))
               + match _geoip_reader (snd (lookup_all _GEOIP_DB_PATH ips st))
                 with Some _ => 0 | None => 1 end
               <= opens (trace st)
                  + match _geoip_reader st with Some _ => 0 | None => 1 end)%nat)
    by (destruct H as [_ H]; lia).
  revert st Hdb. induction ips as [|ip ips IH]; intros st Hdb.
  - cbn. split; [exact Hdb|lia].
  - cbn [lookup_all]. unfold bind.
    pose proof (resolve_valid ip r st Hdb) as H1. cbv zeta in H1.
    destruct (resolve ip st) as [[v|e] st1]; cbn [snd] in *.
    + destruct H1 as [Hdb1 H1]. destruct (IH st1 Hdb1) as [Hdb2 H2].
      split; [exact Hdb2|lia].
    + exact H1.
Qed.

(** X16: an address that is empty or otherwise false ([None], [""], [0]) is
    never put to the database: a lookup that misses the cache resolves it to
    the unknown result without a query. *)
Theorem resolve_falsy_address (ip : value) (k : cache_key) (st : state) :
  make_key ip = Some k ->
  cache_find k (cache st) = None ->
  truthy ip = false ->
  exists st',
    resolve ip st = (Ok None, st') /\
    queries (trace st') = queries (trace st).
Proof.
  intros Hk Hc Ht.
  destruct (resolve_miss _GEOIP_DB_PATH ip k st Hk Hc) as (v & st1 & Hl & ->).
  revert Hl. destruct st as [rd c db file t].
  unfold locate, _get_geoip_reader. run. rewrite Ht. cbn [negb].
  destruct rd as [r'|]; [|destruct _GEOIP_DB_PATH as [p|];
                           [destruct (p =? "")%string; [|destruct db]|]];
    run; intros [= <- <-]; (eexists; split; [reflexivity|]); count_io.
Qed.



End LookupProperties.

(** ** Sync turns *)

Section SyncProperties.

Import SyncDaemon.

Variable _GEOIP_DB_PATH : option string.
Variable _LOCAL_PATH : string.
Variable _INTERVAL_S : Z.
Variable set_order : list value -> list value.

Local Abbreviation resolve := (_get_location_for_ip _GEOIP_DB_PATH).
Local Abbreviation fill := (_fill_location_info _GEOIP_DB_PATH).
Local Abbreviation sync_once := (_sync_once _GEOIP_DB_PATH _LOCAL_PATH set_order).
Local Abbreviation iteration :=
  (loop_iteration _GEOIP_DB_PATH _LOCAL_PATH _INTERVAL_S set_order).
Local Abbreviation turns :=
  (loop_turns _GEOIP_DB_PATH _LOCAL_PATH _INTERVAL_S set_order).

Ltac run :=
  unfold bind, ret, raise, emit, set_reader, set_cache, set_local_events;
  cbn [fst snd _geoip_reader cache geoip_db local_events trace].

Ltac count_io :=
  simpl; unfold waits, writes;
  rewrite ?filter_app, ?length_app; simpl; lia.

(** *** What a lookup leaves alone *)

Lemma locate_quiet (ip : value) (st : state) :
  waits (trace (snd (locate _GEOIP_DB_PATH ip st))) = waits (trace st) /\
  writes (trace (snd (locate _GEOIP_DB_PATH ip st))) = writes (trace st).
Proof.
  destruct st as [rd c db file t].
  unfold locate, _get_geoip_reader. run.
  destruct rd as [r|]; [|destruct _GEOIP_DB_PATH as [p|];
                          [destruct (p =? "")%string; [|destruct db as [| |r]]|]];
    run;
    try (destruct (truthy ip); run;
         [destruct (r ip) as [|m]; run;
          [|destruct (truthy m); run;
            [destruct (location_of_match m) as [d|]; run|]]|]);
    split; count_io.
Qed.

Lemma resolve_quiet (ip : value) (st : state) :
  local_events (snd (resolve ip st)) = local_events st /\
  waits (trace (snd (resolve ip st))) = waits (trace st) /\
  writes (trace (snd (resolve ip st))) = writes (trace st).
Proof.
  split; [apply resolve_files|].
  destruct (make_key ip) as [k|] eqn:Hk.
  - destruct (cache_find k (cache st)) as [v|] eqn:Hc.
    + rewrite (resolve_hit _GEOIP_DB_PATH ip k v st Hk Hc). now split.
    + destruct (resolve_miss _GEOIP_DB_PATH ip k st Hk Hc)
        as (v & st1 & Hl & ->).
      pose proof (locate_quiet ip st) as H. rewrite Hl in H. exact H.
  - unfold _get_location_for_ip. rewrite Hk. now split.
Qed.

Lemma lookup_all_quiet (ips : list value) :
  forall st,
    local_events (snd (lookup_all _GEOIP_DB_PATH ips st)) = local_events st /\
    waits (trace (snd (lookup_all _GEOIP_DB_PATH ips st))) = waits (trace st) /\
    writes (trace (snd (lookup_all _GEOIP_DB_PATH ips st))) = writes (trace st).
Proof.
  induction ips as [|ip ips IH]; intros st; [now repeat split|].
  cbn [lookup_all]. unfold bind.
  destruct (resolve_quiet ip st) as (Hf & Hw & Hr).
  destruct (resolve ip st) as [[v|e] st1]; cbn [snd] in *.
  - destruct (IH st1) as (Hf' & Hw' & Hr'). repeat split; congruence.
  - now repeat split.
Qed.

Lemma fill_quiet (event : pydict) (st : state) :
  local_events (snd (fill event st)) = local_events st /\
  waits (trace (snd (fill event st))) = waits (trace st) /\
  writes (trace (snd (fill event st))) = writes (trace st).
Proof.
  unfold _fill_location_info.
  destruct (truthy (dict_get "src_ip" event)); [|now repeat split].
  unfold bind.
  pose proof (resolve_quiet (dict_get "src_ip" event) st) as H.
  destruct (resolve (dict_get "src_ip" event) st) as [[v|e] st1];
    cbn [snd] in *; [|exact H].
  destruct v as [[|kv d]|]; exact H.
Qed.

Lemma fill_all_quiet (items : list value) :
  forall filled_count st,
    (local_events (snd (fill_all _GEOIP_DB_PATH items filled_count st))
     = local_events st /\
     waits (trace (snd (fill_all _GEOIP_DB_PATH items filled_count st)))
     = waits (trace st) /\
     writes (trace (snd (fill_all _GEOIP_DB_PATH items filled_count st)))
     = writes (trace st)) /\
    (forall r, fst (fill_all _GEOIP_DB_PATH items filled_count st) = Ok r ->
               List.length (fst r) = List.length items).
Proof.
  induction items as [|item items IH]; intros n st.
  - split; [now repeat split|]. cbn. now intros r [= <-].
  - destruct item as [| b | z | f | s | l | d];
      try (cbn [fill_all]; unfold raise; cbn [fst snd];
           split; [now repeat split|discriminate]).
    cbn [fill_all]. destruct (lacks_location d).
    + unfold bind at 1 3 5 7.
      pose proof (fill_quiet d st) as Hq.
      destruct (fill d st) as [[d'|e] st1]; cbn [fst snd] in *;
        [|split; [exact Hq|discriminate]].
      unfold bind. destruct (IH (n + 1)%Z st1) as [Hq1 Hlen].
      destruct (fill_all _GEOIP_DB_PATH items (n + 1)%Z st1)
        as [[r|e] st2]; unfold ret; cbn [fst snd] in *.
      * split.
        -- destruct Hq as (? & ? & ?), Hq1 as (? & ? & ?).
           repeat split; congruence.
        -- intros r' [= <-]. cbn [fst List.length].
           now rewrite (Hlen r eq_refl).
      * split; [|discriminate].
        destruct Hq as (? & ? & ?), Hq1 as (? & ? & ?).
        repeat split; congruence.
    + unfold bind. destruct (IH n st) as [Hq1 Hlen].
      destruct (fill_all _GEOIP_DB_PATH items n st)
        as [[r|e] st2]; unfold ret; cbn [fst snd] in *.
      * split; [exact Hq1|].
        intros r' [= <-]. cbn [fst List.length].
        now rewrite (Hlen r eq_refl).
      * split; [exact Hq1|discriminate].
Qed.

Lemma lookup_phase_quiet (members : list value) (st : state) :
  let phase :=
    match members with
    | [] => ret tt
    | _ :: _ =>
        emit (Print (MsgLookup (List.length members))) ;;;
        lookup_all _GEOIP_DB_PATH (set_order members)
    end in
  local_events (snd (phase st)) = local_events st /\
  waits (trace (snd (phase st))) = waits (trace st) /\
  writes (trace (snd (phase st))) = writes (trace st).
Proof.
  cbv zeta. destruct members as [|ip members]; [now repeat split|].
  unfold bind, emit. cbv beta iota.
  destruct (lookup_all_quiet (set_order (ip :: members))
              {| _geoip_reader := _geoip_reader st; cache := cache st;
                 geoip_db := geoip_db st; local_events := local_events st;
                 trace := trace st
                          ++ [Print (MsgLookup (List.length (ip :: members)))]
              |}) as (Hf & Hw & Hr).
  cbn [local_events trace] in Hf, Hw, Hr.
  repeat split; [exact Hf| |].
  - rewrite Hw. count_io.
  - rewrite Hr. count_io.
Qed.

(** What a sync does to the local file, whatever is fetched and whatever the
    state: it waits for nothing, and either writes nothing and leaves the file
    as it was, or writes once, a list that has as many records as the fetched
    one and at least one. *)
Lemma sync_once_outcome (resp : s3_response) (st : state) :
  waits (trace (snd (sync_once resp st))) = waits (trace st) /\
  ((local_events (snd (sync_once resp st)) = local_events st /\
    writes (trace (snd (sync_once resp st))) = writes (trace st))
   \/
   (exists published n,
      published <> [] /\
      fst (sync_once resp st) = Ok n /\
      local_events (snd (sync_once resp st))
      = Some (JsonDump (VList published)) /\
      writes (trace (snd (sync_once resp st))) = S (writes (trace st)))).
Proof.
  assert (Hlist : forall item items,
    waits (trace (snd (sync_once (S3Json (VList (item :: items))) st)))
    = waits (trace st) /\
    ((local_events (snd (sync_once (S3Json (VList (item :: items))) st))
      = local_events st /\
      writes (trace (snd (sync_once (S3Json (VList (item :: items))) st)))
      = writes (trace st))
     \/
     (exists published n,
        published <> [] /\
        fst (sync_once (S3Json (VList (item :: items))) st) = Ok n /\
        local_events (snd (sync_once (S3Json (VList (item :: items))) st))
        = Some (JsonDump (VList published)) /\
        writes (trace (snd (sync_once (S3Json (VList (item :: items))) st)))
        = S (writes (trace st))))).
  { intros item items.
    remember (sync_once (S3Json (VList (item :: items))) st) as p eqn:Hp.
    rewrite (sync_once_list _GEOIP_DB_PATH _LOCAL_PATH set_order) in Hp.
    unfold bind at 1 in Hp. cbv beta in Hp.
    destruct (unique_ips (item :: items) []) as [members|e];
      [|subst p; cbn [snd fst]; split; [reflexivity|left; now split]].
    unfold bind at 1 in Hp.
    pose proof (lookup_phase_quiet members st) as Hq. cbv zeta in Hq.
    destruct (match members with
              | [] => ret tt
              | _ :: _ =>
                  emit (Print (MsgLookup (List.length members))) ;;;
                  lookup_all _GEOIP_DB_PATH (set_order members)
              end st) as [[u|e] st1]; cbn [snd fst] in Hq;
      destruct Hq as (Hf & Hw & Hr);
      [|subst p; cbn [snd fst]; split; [exact Hw|left; now split]].
    unfold bind at 1 in Hp.
    destruct (fill_all_quiet (item :: items) 0%Z st1)
      as [(Hf2 & Hw2 & Hr2) Hlen].
    destruct (fill_all _GEOIP_DB_PATH (item :: items) 0%Z st1)
      as [[r|e] st2]; cbn [snd fst] in *.
    - unfold bind at 1 in Hp.
      rewrite (atomic_write_json_outcome _LOCAL_PATH) in Hp.
      destruct (encodable (VList (fst r))).
      + revert Hp. run. intros ->.
        cbn [fst snd trace local_events].
        split; [rewrite <- Hw, <- Hw2; count_io|].
        right. exists (fst r), (snd r).
        repeat split.
        * specialize (Hlen r eq_refl). intros E. rewrite E in Hlen.
          discriminate.
        * rewrite <- Hr, <- Hr2. count_io.
      + subst p. cbn [fst snd].
        split; [congruence|left; split; congruence].
    - subst p. cbn [fst snd].
      split; [congruence|left; split; congruence]. }
  destruct resp as [| | |v]; try (split; [count_io|left; split; [reflexivity|count_io]]).
  destruct v as [| b | z | f | s | l | d];
    try (split; [reflexivity|left; now split]).
  - destruct l as [|item items]; [split; [reflexivity|left; now split]|].
    apply Hlist.
  - change (sync_once (S3Json (VDict d)) st)
      with (sync_once (S3Json (VList [VDict d])) st).
    apply Hlist.
Qed.

Lemma iteration_outcome (resp : s3_response) (st : state) :
  exists st',
    iteration resp st = (Ok tt, st') /\
    waits (trace st') = S (waits (trace st)) /\
    (exists before, trace st' = before ++ [Wait _INTERVAL_S]) /\
    ((local_events st' = local_events st /\
      writes (trace st') = writes (trace st))
     \/
     (exists published,
        published <> [] /\
        local_events st' = Some (JsonDump (VList published)) /\
        writes (trace st') = S (writes (trace st)))).
Proof.
  destruct (sync_once_outcome resp st) as [Hw Hfile].
  unfold loop_iteration. unfold bind at 1.
  destruct (sync_once resp st) as [[n|e] st1]; cbn [fst snd] in *.
  - eexists. split; [reflexivity|]. cbn [trace local_events].
    split; [rewrite <- Hw; count_io|].
    split; [eexists; reflexivity|].
    destruct Hfile as [[Hf Hr]|(published & m & Hne & _ & Hf & Hr)].
    + left. split; [exact Hf|]. rewrite <- Hr. count_io.
    + right. exists published. repeat split; auto. rewrite <- Hr. count_io.
  - eexists. split; [reflexivity|]. cbn [trace local_events].
    split; [rewrite <- Hw; count_io|].
    split; [eexists; reflexivity|].
    destruct Hfile as [[Hf Hr]|(published & m & _ & Hok & _)];
      [|discriminate].
    left. split; [exact Hf|]. rewrite <- Hr. count_io.
Qed.

(** X18: a turn of the loop never raises, whatever is fetched and whatever
    the state: it ends in the wait for the interval, and the local file is
    either as it was, with no write, or holds the one list written in the
    turn, which is never empty. *)
Theorem loop_iteration_total (resp : s3_response) (st : state) :
  exists st',
    iteration resp st = (Ok tt, st') /\
    waits (trace st') = S (waits (trace st)) /\
    (exists before, trace st' = before ++ [Wait _INTERVAL_S]) /\
    ((local_events st' = local_events st /\
      writes (trace st') = writes (trace st))
     \/
     (exists published,
        published <> [] /\
        local_events st' = Some (JsonDump (VList published)) /\
        writes (trace st') = S (writes (trace st)))).
Proof. exact (iteration_outcome resp st). Qed.

(** X19: the loop runs one turn after the other until the stop flag is set,
    and nothing else ends it: it waits once per turn, for every turn of the
    schedule up to and including the first whose wait ends with the flag set,
    whatever the fetches of these turns bring or raise. *)
Theorem loop_turns_until_stop (schedule : list (s3_response * bool)) :
  forall st,
  exists st',
    turns schedule st = (Ok tt, st') /\
    waits (trace st') = (waits (trace st) + turns_run schedule)%nat.
Proof.
  induction schedule as [|[resp stopped] schedule IH]; intros st.
  - exists st. split; [reflexivity|]. cbn. lia.
  - destruct (iteration_outcome resp st) as (st1 & Hi & Hw & _).
    cbn [loop_turns turns_run]. unfold bind at 1. rewrite Hi.
    destruct stopped.
    + eexists. split; [reflexivity|]. rewrite Nat.add_1_r, <- Hw. count_io.
    + destruct (IH st1) as (st2 & Ht & Hw2).
      exists st2. split; [exact Ht|]. lia.
Qed.

End SyncProperties.

(** ** What a sync publishes *)

Section PublishProperties.

Import SyncDaemon.

Variable _GEOIP_DB_PATH : option string.
Variable _LOCAL_PATH : string.
Variable _INTERVAL_S : Z.
Variable set_order : list value -> list value.

Local Abbreviation resolve := (_get_location_for_ip _GEOIP_DB_PATH).
Local Abbreviation fill := (_fill_location_info _GEOIP_DB_PATH).
Local Abbreviation sync_once := (_sync_once _GEOIP_DB_PATH _LOCAL_PATH set_order).
Local Abbreviation iteration :=
  (loop_iteration _GEOIP_DB_PATH _LOCAL_PATH _INTERVAL_S set_order).

Ltac run :=
  unfold bind, ret, raise, emit, set_reader, set_cache, set_local_events;
  cbn [fst snd _geoip_reader cache geoip_db local_events trace].

Lemma lookup_all_cache_ok (ips : list value) :
  forall st,
    Forall (fun ip => hashable ip = true) ips ->
    cache_ok st ->
    exists st',
      lookup_all _GEOIP_DB_PATH ips st = (Ok tt, st') /\ cache_ok st'.
Proof.
  induction ips as [|ip ips IH]; intros st Hh Hc.
  - exists st. now split.
  - inversion Hh as [|? ? Hip Hips]; subst.
    apply hashable_make_key in Hip. destruct Hip as [k Hk].
    destruct (resolve_cache_ok _GEOIP_DB_PATH ip k st Hk Hc)
      as (v & st1 & Hr & _ & Hc1).
    destruct (IH st1 Hips Hc1) as (st2 & Hl & Hc2).
    exists st2. split; [|exact Hc2].
    cbn [lookup_all]. unfold bind at 1. now rewrite Hr.
Qed.

Lemma lookup_phase_cache_ok (members : list value) (st : state) :
  (forall l, Permutation (set_order l) l) ->
  Forall (fun ip => hashable ip = true) members ->
  cache_ok st ->
  exists st',
    match members with
    | [] => ret tt
    | _ :: _ =>
        emit (Print (MsgLookup (List.length members))) ;;;
        lookup_all _GEOIP_DB_PATH (set_order members)
    end st = (Ok tt, st') /\
    cache_ok st'.
Proof.
  intros Hperm Hm Hc.
  destruct members as [|ip members]; [exists st; now split|].
  assert (Hm' : Forall (fun ip => hashable ip = true)
                  (set_order (ip :: members))).
  { rewrite Forall_forall in *. intros x Hx. apply Hm.
    eapply Permutation_in; [apply Hperm | exact Hx]. }
  destruct (lookup_all_cache_ok _
              (snd (emit (Print (MsgLookup (List.length (ip :: members)))) st))
              Hm' Hc)
    as (st' & Hl & Hc').
  exists st'. split; [|exact Hc'].
  unfold bind at 1. exact Hl.
Qed.

Lemma enriched_from_refl (item : value) : enriched_from item item.
Proof. split; auto. Qed.

Lemma fill_all_frame (items : list value) :
  forall filled_count st,
    Forall (fun item => record_ok item = true) items ->
    cache_ok st ->
    exists published st',
      fill_all _GEOIP_DB_PATH items filled_count st =
      (Ok (published, (filled_count + count_lacking items)%Z), st') /\
      cache_ok st' /\
      Forall2 enriched_from items published.
Proof.
  induction items as [|item items IH]; intros n st Hok Hc.
  - exists [], st. split; [|split; [exact Hc|constructor]].
    cbn [fill_all]. unfold ret, count_lacking.
    cbn [filter List.length Z.of_nat]. now rewrite Z.add_0_r.
  - inversion Hok as [|? ? Hitem Hitems]; subst.
    destruct item as [| b | z | f | s | l | d]; try discriminate.
    rewrite count_lacking_cons. cbn [fill_all].
    destruct (lacks_location d) eqn:Hl.
    + assert (Hh : truthy (dict_get "src_ip" d) = true ->
                   hashable (dict_get "src_ip" d) = true).
      { intros _. now apply record_ok_hashable. }
      destruct (fill_frame _GEOIP_DB_PATH d st Hc Hh)
        as (d' & st1 & Hf & Hc1 & Hfr).
      destruct (IH (n + 1)%Z st1 Hitems Hc1) as (out & st2 & Hr & Hc2 & Hall).
      exists (VDict d' :: out), st2. split; [|split; [exact Hc2|]].
      * unfold bind at 1. rewrite Hf. unfold bind at 1. rewrite Hr.
        unfold ret. cbn [fst snd]. now rewrite Z.add_assoc.
      * constructor; [|exact Hall]. split.
        -- intros k Hk. cbn [field]. now apply Hfr.
        -- cbn [lacking]. congruence.
    + destruct (IH n st Hitems Hc) as (out & st2 & Hr & Hc2 & Hall).
      exists (VDict d :: out), st2. split; [|split; [exact Hc2|]].
      * unfold bind at 1. rewrite Hr. unfold ret. cbn [fst snd].
        now rewrite Z.add_0_l.
      * constructor; [apply enriched_from_refl|exact Hall].
Qed.

(** C3, as the code has it: when no database can be opened and the fetched
    list is a non-empty list of records, the list to publish is the fetched one
    with the country of each record that lacks a location set to "Unknown";
    every other field of every record, latitude and longitude among them, is
    left as fetched. If this list can be encoded as UTF-8, as it can when the
    fetched one can, the sync completes, returns the number of records that
    lacked a location and publishes the list. If it cannot, the write raises
    [UnicodeEncodeError]: the sync does not complete, nothing is written and
    the local file is left as it was. *)
Theorem sync_once_database_unavailable (items : list value) (st : state) :
  (forall members, Permutation (set_order members) members) ->
  degraded _GEOIP_DB_PATH st ->
  items <> [] ->
  Forall (fun item => record_ok item = true) items ->
  (encodable (VList (map mark_unknown items)) = true ->
   exists st',
     sync_once (S3Json (VList items)) st = (Ok (count_lacking items), st') /\
     local_events st' = Some (JsonDump (VList (map mark_unknown items))) /\
     degraded _GEOIP_DB_PATH st') /\
  (encodable (VList (map mark_unknown items)) = false ->
   exists st',
     sync_once (S3Json (VList items)) st = (Raise UnicodeEncodeError, st') /\
     local_events st' = local_events st /\
     writes (trace st') = writes (trace st) /\
     degraded _GEOIP_DB_PATH st') /\
  (encodable (VList items) = true ->
   encodable (VList (map mark_unknown items)) = true) /\
  (forall item k, k <> "country" ->
                  field k (mark_unknown item) = field k item) /\
  (forall d, lacks_location d = true ->
             field "country" (mark_unknown (VDict d)) = VStr "Unknown") /\
  (forall d, lacks_location d = false -> mark_unknown (VDict d) = VDict d).
Proof.
  intros Hperm Hd Hne Hok.
  destruct items as [|item0 items0]; [contradiction|].
  destruct (unique_ips_ok _ [] Hok (Forall_nil _)) as (members & Hu & Hm).
  destruct (lookup_phase_degraded _GEOIP_DB_PATH set_order members st
              Hperm Hm Hd) as (st1 & Hl & Hd1).
  destruct (fill_all_degraded _GEOIP_DB_PATH _ 0%Z st1 Hok Hd1)
    as (st2 & Hf & Hd2).
  rewrite Z.add_0_l in Hf.
  pose proof (sync_once_write _GEOIP_DB_PATH _LOCAL_PATH set_order
                _ _ _ _ _ _ _ _ Hu Hl Hf) as Hs.
  split; [|split; [|split; [|split; [|split]]]].
  - intros He. rewrite He in Hs. eexists. split; [exact Hs|].
    split; [reflexivity|exact Hd2].
  - intros He. rewrite He in Hs. exists st2. split; [exact Hs|].
    pose proof (lookup_phase_quiet _GEOIP_DB_PATH set_order members st) as Hq.
    cbv zeta in Hq. rewrite Hl in Hq. cbn [snd] in Hq.
    destruct Hq as (Hq1 & _ & Hq2).
    destruct (fill_all_quiet _GEOIP_DB_PATH (item0 :: items0) 0%Z st1)
      as [(Hq3 & _ & Hq4) _].
    rewrite Hf in Hq3, Hq4. cbn [snd] in Hq3, Hq4.
    split; [congruence|]. split; [congruence|exact Hd2].
  - apply encodable_mark_unknown.
  - intros [| b | z | f | s | l | d] k Hk; try reflexivity.
    cbn [mark_unknown]. destruct (lacks_location d); [|reflexivity].
    cbn [field]. now apply dict_get_set_other.
  - intros d Hl'. cbn [mark_unknown]. rewrite Hl'. cbn [field].
    apply dict_get_set_same.
  - intros d Hl'. cbn [mark_unknown]. now rewrite Hl'.
Qed.

(** X20: whatever the database returns, a sync of a non-empty list of records
    fills one record for each fetched record, in the same order; a filled
    record differs from the fetched one in latitude, longitude and country at
    most, and not at all when the fetched record does not lack a location.
    If the filled list can be encoded as UTF-8, the sync completes, returns
    the number of records that lacked a location and publishes the list; if
    not, the write raises [UnicodeEncodeError], nothing is written and the
    local file is left as it was. *)
Theorem sync_once_publishes (items : list value) (st : state) :
  (forall members, Permutation (set_order members) members) ->
  cache_ok st ->
  items <> [] ->
  Forall (fun item => record_ok item = true) items ->
  exists published,
    Forall2 enriched_from items published /\
    (encodable (VList published) = true ->
     exists st',
       sync_once (S3Json (VList items)) st = (Ok (count_lacking items), st') /\
       local_events st' = Some (JsonDump (VList published)) /\
       cache_ok st') /\
    (encodable (VList published) = false ->
     exists st',
       sync_once (S3Json (VList items)) st = (Raise UnicodeEncodeError, st') /\
       local_events st' = local_events st /\
       writes (trace st') = writes (trace st) /\
       cache_ok st').
Proof.
  intros Hperm Hc Hne Hok.
  destruct items as [|item0 items0]; [contradiction|].
  destruct (unique_ips_ok _ [] Hok (Forall_nil _)) as (members & Hu & Hm).
  destruct (lookup_phase_cache_ok members st Hperm Hm Hc) as (st1 & Hl & Hc1).
  destruct (fill_all_frame _ 0%Z st1 Hok Hc1) as (out & st2 & Hf & Hc2 & Hall).
  rewrite Z.add_0_l in Hf.
  pose proof (sync_once_write _GEOIP_DB_PATH _LOCAL_PATH set_order
                _ _ _ _ _ _ _ _ Hu Hl Hf) as Hs.
  exists out. split; [exact Hall|]. split.
  - intros He. rewrite He in Hs. eexists. split; [exact Hs|].
    split; [reflexivity|exact Hc2].
  - intros He. rewrite He in Hs. exists st2. split; [exact Hs|].
    pose proof (lookup_phase_quiet _GEOIP_DB_PATH set_order members st) as Hq.
    cbv zeta in Hq. rewrite Hl in Hq. cbn [snd] in Hq.
    destruct Hq as (Hq1 & _ & Hq2).
    destruct (fill_all_quiet _GEOIP_DB_PATH (item0 :: items0) 0%Z st1)
      as [(Hq3 & _ & Hq4) _].
    rewrite Hf in Hq3, Hq4. cbn [snd] in Hq3, Hq4.
    split; [congruence|]. split; [congruence|exact Hc2].
Qed.

Lemma unique_ips_raises (items : list value) :
  forall members,
    Exists (fun item => record_bad item = true) items ->
    exists e, unique_ips items members = Raise e.
Proof.
  induction items as [|item items IH]; intros members Hbad.
  - inversion Hbad.
  - destruct item as [| b | z | f | s | l | d];
      try (eexists; reflexivity).
    cbn [unique_ips].
    destruct (lacks_location d) eqn:Hl.
    + destruct (hash_key (dict_get "src_ip" d)) as [k|] eqn:Hk;
        [|eexists; reflexivity].
      assert (Hrest : Exists (fun item => record_bad item = true) items).
      { inversion Hbad as [? ? H|]; subst; [|assumption].
        cbn [record_bad] in H. unfold hashable in H.
        rewrite Hl, Hk in H. discriminate. }
      destruct (in_keys k members); now apply IH.
    + apply IH.
      inversion Hbad as [? ? H|]; subst; [|assumption].
      cbn [record_bad] in H. rewrite Hl in H. discriminate.
Qed.

(** X21: a fetched list with a record that is no object, or with a record
    that lacks a location and has a [src_ip] that cannot be hashed, makes the
    sync raise before any lookup and any write: the state is left as it was,
    and the turn of the loop prints the error and waits for the interval. *)
Theorem sync_once_bad_record (items : list value) (st : state) :
  Exists (fun item => record_bad item = true) items ->
  exists e,
    sync_once (S3Json (VList items)) st = (Raise e, st) /\
    iteration (S3Json (VList items)) st =
    (Ok tt, {| _geoip_reader := _geoip_reader st; cache := cache st;
               geoip_db := geoip_db st; local_events := local_events st;
               trace := trace st ++ [Print MsgLoopError; Wait _INTERVAL_S] |}).
Proof.
  intros Hbad.
  destruct items as [|item items]; [inversion Hbad|].
  destruct (unique_ips_raises _ [] Hbad) as [e He].
  assert (Hs : sync_once (S3Json (VList (item :: items))) st = (Raise e, st)).
  { rewrite (sync_once_list _GEOIP_DB_PATH _LOCAL_PATH set_order).
    unfold bind at 1. now rewrite He. }
  exists e. split; [exact Hs|].
  unfold loop_iteration. unfold bind at 1. rewrite Hs. run.
  now rewrite <- app_assoc.
Qed.

End PublishProperties.

(** ** The addresses to look up *)

Section UniqueIps.

Import SyncDaemon.

Lemma in_keys_spec (k : hkey) (members : list value) :
  in_keys k members = true <-> In (Some k) (map hash_key members).
Proof.
  induction members as [|v members IH]; simpl; [split; [discriminate|tauto]|].
  destruct (hash_key v) as [k'|] eqn:E.
  - rewrite orb_true_iff, IH, hkey_eqb_eq. split.
    + intros [->|H]; auto.
    + intros [[= ->]|H]; auto.
  - rewrite IH. split; auto. intros [H|H]; [discriminate|exact H].
Qed.

Lemma unique_ips_from (items : list value) :
  forall acc members,
    unique_ips items acc = Ok members ->
    NoDup (map hash_key acc) ->
    Forall (fun ip => hashable ip = true /\ truthy ip = true) acc ->
    NoDup (map hash_key members) /\
    Forall (fun ip => hashable ip = true /\ truthy ip = true) members /\
    (forall ip, In ip acc -> In ip members) /\
    (forall d, In (VDict d) items -> lacks_location d = true ->
               exists ip, In ip members
                          /\ hash_key ip = hash_key (dict_get "src_ip" d)) /\
    (forall ip, In ip members ->
                In ip acc \/
                exists d, In (VDict d) items /\ lacks_location d = true
                          /\ dict_get "src_ip" d = ip).
Proof.
  induction items as [|item items IH]; intros acc members Hu Hnd Hacc.
  - injection Hu as <-. repeat split; auto. intros d [].
  - destruct item as [| b | z | f | s | l | d]; try discriminate.
    cbn [unique_ips] in Hu.
    destruct (lacks_location d) eqn:Hl.
    + destruct (hash_key (dict_get "src_ip" d)) as [k|] eqn:Hk;
        [|discriminate].
      destruct (in_keys k acc) eqn:Hin.
      * destruct (IH acc members Hu Hnd Hacc) as (H1 & H2 & H3 & H4 & H5).
        repeat split; auto.
        -- intros d' [[= <-]|Hd'] Hl'; [|now apply H4].
           apply in_keys_spec in Hin. apply in_map_iff in Hin.
           destruct Hin as (ip & Hip & Hin).
           exists ip. split; [now apply H3|congruence].
        -- intros ip Hip. destruct (H5 ip Hip) as [H|(d' & Hd' & Hl' & E)];
             [now left|].
           right. exists d'. repeat split; auto. now right.
      * assert (Hnd' : NoDup (map hash_key (acc ++ [dict_get "src_ip" d]))).
        { rewrite map_app. apply NoDup_app; [exact Hnd| |].
          - simpl. repeat constructor. simpl. tauto.
          - intros x Hx [<-|[]]. rewrite Hk in Hx.
            apply in_keys_spec in Hx. congruence. }
        assert (Hacc' : Forall (fun ip => hashable ip = true /\ truthy ip = true)
                          (acc ++ [dict_get "src_ip" d])).
        { apply Forall_app. split; [exact Hacc|].
          constructor; [|constructor]. split.
          - unfold hashable. now rewrite Hk.
          - unfold lacks_location in Hl. now apply andb_true_iff in Hl. }
        destruct (IH _ members Hu Hnd' Hacc') as (H1 & H2 & H3 & H4 & H5).
        repeat split; auto.
        -- intros ip Hip. apply H3. apply in_or_app. now left.
        -- intros d' [[= <-]|Hd'] Hl'; [|now apply H4].
           exists (dict_get "src_ip" d). split; [|reflexivity].
           apply H3. apply in_or_app. right. now left.
        -- intros ip Hip. destruct (H5 ip Hip) as [H|(d' & Hd' & Hl' & E)].
           ++ apply in_app_or in H. destruct H as [H|[<-|[]]]; [now left|].
              right. exists d. repeat split; auto. now left.
           ++ right. exists d'. repeat split; auto. now right.
    + destruct (IH acc members Hu Hnd Hacc) as (H1 & H2 & H3 & H4 & H5).
      repeat split; auto.
      * intros d' [[= <-]|Hd'] Hl'; [congruence|now apply H4].
      * intros ip Hip. destruct (H5 ip Hip) as [H|(d' & Hd' & Hl' & E)];
          [now left|].
        right. exists d'. repeat split; auto. now right.
Qed.

(** X22: the addresses collected for lookup are pairwise different: however
    many records share an address, it is collected once. Each collected
    address is the true, hashable [src_ip] of a record that lacks a location,
    and every such record has its address, or one equal to it, collected. *)
Theorem unique_ips_distinct (items members : list value) :
  unique_ips items [] = Ok members ->
  NoDup (map hash_key members) /\
  Forall (fun ip => hashable ip = true /\ truthy ip = true) members /\
  (forall d, In (VDict d) items -> lacks_location d = true ->
             exists ip, In ip members
                        /\ hash_key ip = hash_key (dict_get "src_ip" d)) /\
  (forall ip, In ip members ->
              exists d, In (VDict d) items /\ lacks_location d = true
                        /\ dict_get "src_ip" d = ip).
Proof.
  intros Hu.
  destruct (unique_ips_from items [] members Hu (NoDup_nil _) (Forall_nil _))
    as (H1 & H2 & _ & H4 & H5).
  repeat split; auto.
  intros ip Hip. destruct (H5 ip Hip) as [[]|H]. exact H.
Qed.

End UniqueIps.

(** ** The policy of the cache *)

Section CachePolicy.

Import SyncDaemon.

Variable _GEOIP_DB_PATH : option string.

Local Abbreviation resolve := (_get_location_for_ip _GEOIP_DB_PATH).


End CachePolicy.

(** ** Start and stop *)

Section ControlProperties.

Import SyncDaemon Control.

Lemma unjoined_app (l l' : list event) :
  forall running, unjoined (l ++ l') running = unjoined l' (unjoined l running).
Proof.
  induction l as [|e l IH]; intros running; [reflexivity|].
  destruct e; simpl; apply IH.
Qed.

Lemma perform_one_thread (p : process) (c : call) :
  one_thread p -> one_thread (perform p c).
Proof.
  unfold one_thread. destruct p as [st th fl n m l]. simpl.
  destruct c; simpl.
  - unfold start_sync_daemon. simpl.
    destruct th as [t|]; intros [-> Hu]; simpl; [now split|].
    split; [reflexivity|]. now rewrite unjoined_app, Hu.
  - unfold stop_sync_daemon. simpl.
    destruct th as [t|]; intros [-> Hu]; simpl; [|now split].
    destruct (_geoip_reader m); simpl; (split; [reflexivity|]);
      rewrite ?unjoined_app, Hu; simpl; now rewrite Nat.eqb_refl.
Qed.

(** X24: however a caller mixes starts and stops, from the import of the
    module on, the flags and the threads agree: while the daemon is started
    exactly one thread has been started and not joined, the one that
    [_thread] names, and while it is not started there is none. *)
Theorem calls_one_thread (calls : list call) (st : state) :
  one_thread (fold_left perform calls (fresh st)).
Proof.
  assert (H : forall p, one_thread p -> one_thread (fold_left perform calls p)).
  { induction calls as [|c calls IH]; intros p Hp; [exact Hp|].
    simpl. apply IH. now apply perform_one_thread. }
  apply H. unfold one_thread. simpl. now split.
Qed.

(** X25: stopping a started daemon sets the stop flag, joins the thread with
    a timeout of two seconds, closes and forgets a held reader and leaves the
    lookup cache and the files as they are; stopping again, or stopping a
    daemon that is not started, does nothing, so that a reader held then is
    not closed. *)
Theorem stop_sync_daemon_effect (p : process) :
  (_started p = true ->
   let p' := stop_sync_daemon p in
   _started p' = false /\ _stop_flag p' = true /\ _thread p' = None /\
   _geoip_reader (mem p') = None /\
   cache (mem p') = cache (mem p) /\
   local_events (mem p') = local_events (mem p) /\
   (forall n, _thread p = Some n -> In (ThreadJoin n 2) (log p')) /\
   (_geoip_reader (mem p) <> None -> In ReaderClose (log p')) /\
   stop_sync_daemon p' = p') /\
  (_started p = false -> stop_sync_daemon p = p).
Proof.
  destruct p as [st th fl n m l]. unfold stop_sync_daemon. simpl. split.
  - intros ->. simpl.
    destruct (_geoip_reader m) eqn:Er; simpl; repeat split; auto.
    + intros t ->. apply in_or_app. left. apply in_or_app. right. now left.
    + intros _. apply in_or_app. right. now left.
    + intros t ->. apply in_or_app. right. now left.
    + intros H. now contradiction H.
  - intros ->. reflexivity.
Qed.

Lemma locate_reopens (path : option string) (ip : value) (r : reader)
    (st : state) :
  _geoip_reader st = None ->
  path_unset path = false ->
  geoip_db st = Valid r ->
  opens (trace (snd (locate path ip st))) = S (opens (trace st)) /\
  _geoip_reader (snd (locate path ip st)) = Some r.
Proof.
  destruct st as [rd c db file t]. simpl. intros -> Hp ->.
  unfold locate, _get_geoip_reader, bind, ret, emit, set_reader.
  destruct path as [p|]; [|discriminate]. simpl in Hp. rewrite Hp.
  cbn [_geoip_reader geoip_db fst snd trace cache local_events].
  destruct (truthy ip); cbn [negb];
    [destruct (r ip) as [|m];
     [|destruct (truthy m); [destruct (location_of_match m)|]]|];
    (split; [|reflexivity]);
    simpl; unfold opens; rewrite ?filter_app, ?length_app; simpl; lia.
Qed.

(** X26: a stop closes the reader and keeps the lookup cache: after it, an
    address whose result is cached is still answered from the cache, without
    any I/O, and the lookup of an address that is not cached opens the
    database again. *)
Theorem lookup_after_stop (path : option string) (p : process) (ip : value)
    (k : cache_key) (r : reader) :
  _started p = true ->
  geoip_db (mem p) = Valid r ->
  path_unset path = false ->
  make_key ip = Some k ->
  let st := mem (stop_sync_daemon p) in
  (forall v, cache_find k (cache (mem p)) = Some v ->
             fst (_get_location_for_ip path ip st) = Ok v /\
             trace (snd (_get_location_for_ip path ip st)) = trace (mem p)) /\
  (cache_find k (cache (mem p)) = None ->
   opens (trace (snd (_get_location_for_ip path ip st)))
   = S (opens (trace (mem p))) /\
   _geoip_reader (snd (_get_location_for_ip path ip st)) = Some r).
Proof.
  intros Hs Hdb Hp Hk. cbv zeta.
  assert (Hst : _geoip_reader (mem (stop_sync_daemon p)) = None /\
                cache (mem (stop_sync_daemon p)) = cache (mem p) /\
                geoip_db (mem (stop_sync_daemon p)) = geoip_db (mem p) /\
                trace (mem (stop_sync_daemon p)) = trace (mem p)).
  { unfold stop_sync_daemon. rewrite Hs. simpl.
    destruct (_geoip_reader (mem p)) eqn:E; simpl; auto. }
  destruct Hst as (Hr & Hc & Hd & Ht).
  set (st := mem (stop_sync_daemon p)) in *. split.
  - intros v Hv. rewrite <- Hc in Hv.
    rewrite (resolve_hit path ip k v st Hk Hv). simpl. split; auto.
  - intros Hv. rewrite <- Hc in Hv.
    destruct (resolve_miss path ip k st Hk Hv) as (v & st1 & Hl & ->).
    cbn [snd trace _geoip_reader].
    rewrite <- Hd in Hdb.
    pose proof (locate_reopens path ip r st Hr Hp Hdb) as H.
    rewrite Hl in H. cbn [snd] in H. now rewrite <- Ht.
Qed.

End ControlProperties.

(** ** Flags *)

Section FlagProperties.

Import Utils.

Variable upper : Z -> pystr.
Hypothesis upper_ascii : upper_on_ascii upper.

Lemma upper_letter (c : Z) :
  is_letter c = true ->
  upper c = [letter_index c + 65]%Z /\ (0 <= letter_index c <= 25)%Z.
Proof.
  unfold is_letter, letter_index. intros H.
  rewrite upper_ascii by lia. unfold ascii_upper.
  destruct (97 <=? c)%Z eqn:E1; destruct (c <=? 122)%Z eqn:E2;
    destruct (65 <=? c)%Z eqn:E3; destruct (c <=? 90)%Z eqn:E4;
    simpl in *; try discriminate; split; try (f_equal; lia); lia.
Qed.

Lemma upper_ascii_char (c : Z) :
  (0 <= c < 128)%Z ->
  exists e, upper c = [e] /\ ((65 <=? e) && (e <=? 90))%Z = is_letter c.
Proof.
  intros Hc. rewrite upper_ascii by exact Hc.
  unfold ascii_upper, is_letter.
  destruct (97 <=? c)%Z eqn:E1; destruct (c <=? 122)%Z eqn:E2; simpl;
    eexists; (split; [reflexivity|]);
    rewrite ?Z.leb_le, ?Z.leb_gt in *;
    destruct (65 <=? c)%Z eqn:E3; destruct (c <=? 90)%Z eqn:E4; simpl;
    rewrite ?Z.leb_le, ?Z.leb_gt in *;
    try reflexivity; try lia;
    try (rewrite ?orb_false_r; rewrite ?andb_true_iff, ?Z.leb_le; lia);
    try (apply andb_true_iff; rewrite !Z.leb_le; lia).
Qed.

Lemma flag_of_letters (a b : Z) :
  is_letter a = true -> is_letter b = true ->
  get_flag_emoji upper (Some [a; b])
  = Flag [base + letter_index a; base + letter_index b]%Z /\
  (127462 <= base + letter_index a <= 127487)%Z /\
  (127462 <= base + letter_index b <= 127487)%Z.
Proof.
  intros Ha Hb.
  destruct (upper_letter a Ha) as [Ua Ra], (upper_letter b Hb) as [Ub Rb].
  unfold get_flag_emoji, base. rewrite Ua, Ub.
  replace ((65 <=? letter_index a + 65) && (letter_index a + 65 <=? 90)
           && ((65 <=? letter_index b + 65) && (letter_index b + 65 <=? 90)))%Z
    with true.
  - cbn [negb]. repeat split; try lia. do 2 f_equal; [lia|f_equal; lia].
  - symmetry. rewrite !andb_true_iff, !Z.leb_le. lia.
Qed.

(** X27: for two letters of ASCII, in either case, the flag is the pair of
    regional indicator symbols of the two letters, both within U+1F1E6 to
    U+1F1FF; lower and upper case give the same flag. *)
Theorem get_flag_emoji_letters (a b : Z) :
  is_letter a = true -> is_letter b = true ->
  get_flag_emoji upper (Some [a; b])
  = Flag [base + letter_index a; base + letter_index b]%Z /\
  (127462 <= base + letter_index a <= 127487)%Z /\
  (127462 <= base + letter_index b <= 127487)%Z.
Proof. exact (flag_of_letters a b). Qed.

(** X28: the country code can be read back from its flag: the letters of the
    flag of two ASCII letters are the two letters in upper case, so that two
    codes have the same flag only when they are the same up to case. *)
Theorem get_flag_emoji_round_trip (a b : Z) :
  is_letter a = true -> is_letter b = true ->
  exists s,
    get_flag_emoji upper (Some [a; b]) = Flag s /\
    letters_of_flag s = Some (upper a ++ upper b).
Proof.
  intros Ha Hb.
  destruct (flag_of_letters a b Ha Hb) as (H & Ra & Rb).
  destruct (upper_letter a Ha) as [Ua _], (upper_letter b Hb) as [Ub _].
  eexists. split; [exact H|].
  rewrite Ua, Ub. unfold letters_of_flag, base in *.
  replace ((127462 <=? 127462 + letter_index a)
           && (127462 + letter_index a <=? 127462 + 25)
           && ((127462 <=? 127462 + letter_index b)
               && (127462 + letter_index b <=? 127462 + 25)))%Z with true.
  - cbn [app]. f_equal. f_equal; [lia|f_equal; lia].
  - symmetry. rewrite !andb_true_iff, !Z.leb_le. lia.
Qed.

(** X29: on ASCII text the function never raises, and it returns the white
    flag exactly for what is not a pair of letters: a string of another
    length, or one with a digit, a sign or a blank. *)
Theorem get_flag_emoji_white (s : pystr) :
  Forall (fun c => (0 <= c < 128)%Z) s ->
  (get_flag_emoji upper (Some s) = Flag white_flag <->
   ~ exists a b, s = [a; b] /\ is_letter a = true /\ is_letter b = true).
Proof.
  intros Hs. split.
  - intros Hw (a & b & -> & Ha & Hb).
    destruct (flag_of_letters a b Ha Hb) as (H & Ra & Rb).
    pose proof (eq_trans (eq_sym H) Hw) as E.
    assert (E' : (base + letter_index a)%Z = 127987%Z)
      by (unfold white_flag in E; congruence).
    unfold base in *. lia.
  - intros Hn.
    destruct s as [|a [|b [|c s]]]; try reflexivity.
    inversion Hs as [|? ? Ha Hs']; subst.
    inversion Hs' as [|? ? Hb _]; subst.
    destruct (upper_ascii_char a Ha) as (ea & Ua & Ea).
    destruct (upper_ascii_char b Hb) as (eb & Ub & Eb).
    unfold get_flag_emoji. rewrite Ua, Ub, Ea, Eb.
    destruct (is_letter a) eqn:La; destruct (is_letter b) eqn:Lb;
      try reflexivity.
    exfalso. apply Hn. now exists a, b.
Qed.

End FlagProperties.

(** ** One query for each address *)

Section Dedup.

Import SyncDaemon.

Variable _GEOIP_DB_PATH : option string.
Variable _LOCAL_PATH : string.
Variable set_order : list value -> list value.

Local Abbreviation resolve := (_get_location_for_ip _GEOIP_DB_PATH).
Local Abbreviation fill := (_fill_location_info _GEOIP_DB_PATH).
Local Abbreviation sync_once := (_sync_once _GEOIP_DB_PATH _LOCAL_PATH set_order).

Lemma firstn_keys_more (k0 : cache_key) (c : list (cache_key * option pydict)) :
  forall m,
    In k0 (map fst (firstn m c)) -> In k0 (map fst (firstn (S m) c)).
Proof.
  induction c as [|x c IH]; intros [|m]; simpl; try tauto.
  intros [->|H]; [now left|]. right. now apply (IH m).
Qed.

Lemma firstn_remove_other (k k0 : cache_key) (m : nat)
    (c : list (cache_key * option pydict)) :
  k0 <> k ->
  In k0 (map fst (firstn m c)) ->
  In k0 (map fst (firstn m (cache_remove k c))).
Proof.
  intros Hne. revert m.
  induction c as [|[k1 v1] c IH]; intros [|m]; simpl; try tauto.
  intros [->|Hin].
  - destruct (cache_key_eqb k0 k) eqn:E.
    + apply cache_key_eqb_eq in E. contradiction.
    + simpl. now left.
  - destruct (cache_key_eqb k1 k).
    + apply firstn_keys_more. now apply IH.
    + simpl. right. now apply IH.
Qed.

Lemma firstn_remove_front (k k0 : cache_key)
    (c : list (cache_key * option pydict)) :
  forall m,
    In k (map fst (firstn (S m) c)) ->
    In k0 (map fst (firstn (S m) c)) ->
    k0 <> k ->
    In k0 (map fst (firstn m (cache_remove k c))).
Proof.
  induction c as [|[k1 v1] c IH]; intros m Hk Hk0 Hne; [contradiction|].
  cbn [firstn map fst] in Hk, Hk0. cbn [cache_remove].
  destruct (cache_key_eqb k1 k) eqn:E.
  - apply cache_key_eqb_eq in E. subst k1.
    destruct Hk0 as [->|Hk0]; [contradiction|].
    now apply firstn_remove_other.
  - destruct Hk as [->|Hk]; [now rewrite cache_key_eqb_refl in E|].
    destruct m as [|m]; [contradiction|].
    cbn [firstn map fst]. destruct Hk0 as [->|Hk0]; [now left|].
    right. now apply IH.
Qed.

Lemma firstn_keys_find (k : cache_key) (n : nat)
    (c : list (cache_key * option pydict)) :
  In k (map fst (firstn n c)) -> exists v, cache_find k c = Some v.
Proof.
  revert n. induction c as [|[k1 v1] c IH]; intros [|n]; simpl; try tauto.
  destruct (cache_key_eqb k1 k) eqn:E; [eauto|].
  intros [->|Hin]; [now rewrite cache_key_eqb_refl in E|eauto].
Qed.

(** A lookup of a key that is not among the recent ones adds it to them. *)
Lemma resolve_new_key (ip : value) (k : cache_key) (K : list cache_key)
    (st : state) :
  make_key ip = Some k ->
  ~ In k K ->
  (List.length K < maxsize)%nat ->
  covers K (cache st) ->
  exists v st',
    resolve ip st = (Ok v, st') /\
    covers (k :: K) (cache st') /\
    (queries (trace st') <= queries (trace st) + 1)%nat.
Proof.
  intros Hk Hnew Hlen Hcov.
  destruct (cache_find k (cache st)) as [v|] eqn:Hc.
  - rewrite (resolve_hit _GEOIP_DB_PATH ip k v st Hk Hc).
    do 2 eexists. split; [reflexivity|]. cbn [cache trace]. split; [|lia].
    intros k0 [<-|Hin]; cbn [List.length firstn map fst]; [now left|].
    right. apply firstn_remove_other; [|now apply Hcov].
    intros ->. contradiction.
  - destruct (resolve_miss _GEOIP_DB_PATH ip k st Hk Hc)
      as (v & st1 & Hl & ->).
    destruct (locate_outcome _GEOIP_DB_PATH ip st)
      as (v' & st1' & Hl' & _ & _ & _ & _ & Hq).
    rewrite Hl in Hl'. injection Hl' as <- <-.
    do 2 eexists. split; [reflexivity|]. cbn [cache trace].
    split; [|exact Hq].
    intros k0 [<-|Hin]; cbn [List.length firstn map fst]; [now left|].
    right. rewrite firstn_firstn.
    replace (Nat.min (List.length K) (Nat.pred maxsize)) with (List.length K)
      by (unfold maxsize in *; simpl Nat.pred; lia).
    now apply Hcov.
Qed.

(** A lookup of one of the recent keys is answered from the cache. *)
Lemma resolve_recent_key (ip : value) (k : cache_key) (K : list cache_key)
    (st : state) :
  make_key ip = Some k ->
  In k K ->
  covers K (cache st) ->
  exists v st',
    resolve ip st = (Ok v, st') /\
    covers K (cache st') /\
    trace st' = trace st.
Proof.
  intros Hk Hin Hcov.
  destruct (firstn_keys_find k _ _ (Hcov k Hin)) as [v Hc].
  rewrite (resolve_hit _GEOIP_DB_PATH ip k v st Hk Hc).
  do 2 eexists. split; [reflexivity|]. cbn [cache trace].
  split; [|reflexivity].
  destruct K as [|k1 K]; [contradiction|].
  intros k0 Hk0. cbn [List.length firstn map fst].
  destruct (cache_key_eqb_eq k0 k) as [_ Heq].
  destruct (cache_key_eqb k0 k) eqn:E.
  - apply cache_key_eqb_eq in E. now left.
  - right. apply firstn_remove_front.
    + exact (Hcov k Hin).
    + exact (Hcov k0 Hk0).
    + intros ->. rewrite cache_key_eqb_refl in E. discriminate.
Qed.

Lemma keys_of_cons (ip : value) (k : cache_key) (ips : list value) :
  make_key ip = Some k -> keys_of (ip :: ips) = k :: keys_of ips.
Proof. intros H. unfold keys_of. cbn [flat_map]. now rewrite H. Qed.

Lemma lookup_all_new_keys (ips : list value) :
  forall K st,
    Forall (fun ip => hashable ip = true) ips ->
    NoDup (keys_of ips ++ K) ->
    (List.length (keys_of ips ++ K) <= maxsize)%nat ->
    covers K (cache st) ->
    exists Kf st',
      lookup_all _GEOIP_DB_PATH ips st = (Ok tt, st') /\
      covers Kf (cache st') /\
      (forall k, In k Kf <-> In k (keys_of ips) \/ In k K) /\
      (queries (trace st') <= queries (trace st) + List.length ips)%nat.
Proof.
  induction ips as [|ip ips IH]; intros K st Hh Hnd Hlen Hcov.
  - exists K, st. split; [reflexivity|]. split; [exact Hcov|]. split.
    + intros k. simpl. tauto.
    + simpl. lia.
  - inversion Hh as [|? ? Hip Hips]; subst.
    apply hashable_make_key in Hip. destruct Hip as [k Hk].
    rewrite (keys_of_cons ip k ips Hk) in Hnd, Hlen.
    cbn [app] in Hnd, Hlen.
    assert (Hnew : ~ In k K).
    { inversion Hnd as [|? ? Hn _]; subst. intros H. apply Hn.
      apply in_or_app. now right. }
    assert (HlenK : (List.length K < maxsize)%nat).
    { cbn [List.length] in Hlen. rewrite length_app in Hlen. lia. }
    destruct (resolve_new_key ip k K st Hk Hnew HlenK Hcov)
      as (v & st1 & Hr & Hcov1 & Hq1).
    assert (Hnd' : NoDup (keys_of ips ++ k :: K)).
    { eapply Permutation_NoDup; [|exact Hnd]. apply Permutation_middle. }
    assert (Hlen' : (List.length (keys_of ips ++ k :: K) <= maxsize)%nat).
    { cbn [List.length] in Hlen. rewrite length_app in Hlen.
      rewrite length_app. cbn [List.length]. lia. }
    destruct (IH (k :: K) st1 Hips Hnd' Hlen' Hcov1)
      as (Kf & st2 & Hl & Hcov2 & HKf & Hq2).
    exists Kf, st2. split; [|split; [exact Hcov2|split]].
    + cbn [lookup_all]. unfold bind at 1. now rewrite Hr.
    + intros k0. rewrite HKf, (keys_of_cons ip k ips Hk). simpl. tauto.
    + cbn [List.length]. lia.
Qed.

Lemma fill_all_recent (K : list cache_key) (items : list value) :
  forall filled_count st,
    Forall (fun item => string_record item = true) items ->
    (forall d, In (VDict d) items -> lacks_location d = true ->
               exists k, make_key (dict_get "src_ip" d) = Some k /\ In k K) ->
    covers K (cache st) ->
    exists r st',
      fill_all _GEOIP_DB_PATH items filled_count st = (Ok r, st') /\
      covers K (cache st') /\
      trace st' = trace st.
Proof.
  induction items as [|item items IH]; intros n st Hs HK Hcov.
  - do 2 eexists. split; [reflexivity|]. now split.
  - inversion Hs as [|? ? Hitem Hitems]; subst.
    destruct item as [| b | z | f | s | l | d]; try discriminate.
    assert (HK' : forall d', In (VDict d') items -> lacks_location d' = true ->
                    exists k, make_key (dict_get "src_ip" d') = Some k
                              /\ In k K).
    { intros d' Hd'. apply HK. now right. }
    cbn [fill_all]. destruct (lacks_location d) eqn:Hl.
    + destruct (HK d (or_introl eq_refl) Hl) as (k & Hk & Hin).
      destruct (resolve_recent_key _ k K st Hk Hin Hcov)
        as (v & st1 & Hr & Hcov1 & Ht1).
      destruct (IH (n + 1)%Z st1 Hitems HK' Hcov1) as (r & st2 & Hf & Hcov2 & Ht2).
      destruct v as [[|kv dv]|];
        (do 2 eexists; split; [|split; [exact Hcov2|congruence]];
         unfold bind at 1; unfold _fill_location_info;
         rewrite (lacks_location_truthy d Hl); unfold bind at 1; rewrite Hr;
         unfold ret at 1; cbv beta iota;
         unfold bind at 1; rewrite Hf; reflexivity).
    + destruct (IH n st Hitems HK' Hcov) as (r & st2 & Hf & Hcov2 & Ht2).
      do 2 eexists. split; [|split; [exact Hcov2|exact Ht2]].
      unfold bind at 1. rewrite Hf. reflexivity.
Qed.

Lemma keys_of_In (k : cache_key) (ips : list value) :
  In k (keys_of ips) <-> exists ip, In ip ips /\ make_key ip = Some k.
Proof.
  unfold keys_of. rewrite in_flat_map. split.
  - intros (ip & Hip & Hk). exists ip. split; [exact Hip|].
    destruct (make_key ip) as [k'|]; [|contradiction].
    destruct Hk as [->|[]]. reflexivity.
  - intros (ip & Hip & Hk). exists ip. split; [exact Hip|].
    rewrite Hk. now left.
Qed.

Lemma keys_of_strings (ips : list value) :
  Forall (fun ip => exists s, ip = VStr s) ips ->
  NoDup (map hash_key ips) ->
  NoDup (keys_of ips) /\ List.length (keys_of ips) = List.length ips.
Proof.
  induction ips as [|ip ips IH]; intros Hs Hnd; [split; [constructor|reflexivity]|].
  inversion Hs as [|? ? [s ->] Hs']; subst.
  cbn [map] in Hnd. inversion Hnd as [|? ? Hn Hnd']; subst.
  destruct (IH Hs' Hnd') as [H1 H2].
  rewrite (keys_of_cons (VStr s) (Bare (KStr s)) ips eq_refl).
  split; [|cbn [List.length]; now rewrite H2].
  constructor; [|exact H1].
  intros Hin. apply keys_of_In in Hin. destruct Hin as (ip & Hip & Hk).
  apply Hn. apply in_map_iff. exists ip. split; [|exact Hip].
  rewrite Forall_forall in Hs'. destruct (Hs' ip Hip) as [s' ->].
  cbn in Hk. injection Hk as ->. reflexivity.
Qed.

(** X30: deduplication: when the addresses are strings and the different ones
    among the records that lack a location fit in the cache, a sync asks the
    database at most once for each different address, however many records
    share it: the second pass finds every address in the cache. The bound
    holds for the state the sync ends in, whether it returns or the write
    raises, and the write's [UnicodeEncodeError] is the one exception that
    such a sync can raise. *)
Theorem sync_once_queries_once (items members : list value) (st : state) :
  (forall l, Permutation (set_order l) l) ->
  Forall (fun item => string_record item = true) items ->
  unique_ips items [] = Ok members ->
  (List.length members <= maxsize)%nat ->
  (queries (trace (snd (sync_once (S3Json (VList items)) st)))
   <= queries (trace st) + List.length members)%nat /\
  (forall e, fst (sync_once (S3Json (VList items)) st) = Raise e ->
             e = UnicodeEncodeError).
Proof.
  intros Hperm Hs Hu Hlen.
  destruct items as [|item0 items0] eqn:Hitems.
  { split; [cbn; lia|]. cbn. discriminate. }
  rewrite <- Hitems in *.
  destruct (unique_ips_from items [] members Hu (NoDup_nil _) (Forall_nil _))
    as (Hnd & Hm & _ & Hcovr & Horig).
  assert (Hsrc : forall d, In (VDict d) items -> lacks_location d = true ->
                           exists s, dict_get "src_ip" d = VStr s).
  { intros d Hd Hl. rewrite Forall_forall in Hs. specialize (Hs _ Hd).
    apply lacks_location_truthy in Hl. cbn [string_record] in Hs.
    destruct (dict_get "src_ip" d); try discriminate. eauto. }
  assert (Hstr : Forall (fun ip => exists s, ip = VStr s) members).
  { apply Forall_forall. intros ip Hip.
    destruct (Horig ip Hip) as [[]|(d & Hd & Hl & <-)]. now apply Hsrc. }
  destruct (keys_of_strings members Hstr Hnd) as [HndK HlenK].
  assert (Hpo : Permutation (set_order members) members) by apply Hperm.
  assert (HpK : Permutation (keys_of (set_order members)) (keys_of members)).
  { unfold keys_of. now apply Permutation_flat_map. }
  assert (Hphase : exists Kf st1,
            match members with
            | [] => ret tt
            | _ :: _ =>
                emit (Print (MsgLookup (List.length members))) ;;;
                lookup_all _GEOIP_DB_PATH (set_order members)
            end st = (Ok tt, st1) /\
            covers Kf (cache st1) /\
            (forall k, In k Kf <-> In k (keys_of members)) /\
            (queries (trace st1) <= queries (trace st) + List.length members)%nat).
  { destruct members as [|m0 ms] eqn:Hmem.
    - exists [], st. repeat split; auto; try tauto.
      + intros k []. 
      + simpl. lia.
    - rewrite <- Hmem in *.
      destruct (lookup_all_new_keys (set_order members) []
                  (snd (emit (Print (MsgLookup (List.length members))) st)))
        as (Kf & st1 & Hl & Hcov & HKf & Hq).
      + apply Forall_forall. intros ip Hip.
        rewrite Forall_forall in Hm. apply Hm.
        eapply Permutation_in; [exact Hpo|exact Hip].
      + rewrite app_nil_r. eapply Permutation_NoDup; [|exact HndK].
        now apply Permutation_sym.
      + rewrite app_nil_r, (Permutation_length HpK). lia.
      + intros k [].
      + exists Kf, st1. split; [|split; [exact Hcov|split]].
        * unfold bind at 1. exact Hl.
        * intros k. rewrite HKf. split.
          -- intros [H|[]]. eapply Permutation_in; [exact HpK|exact H].
          -- intros H. left. eapply Permutation_in;
               [apply Permutation_sym; exact HpK|exact H].
        * cbn [emit snd trace] in Hq.
          rewrite (Permutation_length Hpo) in Hq.
          unfold queries in *. rewrite filter_app, length_app in Hq.
          simpl in Hq. lia. }
  destruct Hphase as (Kf & st1 & Hp1 & Hcov1 & HKf & Hq1).
  destruct (fill_all_recent Kf items 0%Z st1 Hs) as (r & st2 & Hf & _ & Ht2);
    [|exact Hcov1|].
  { intros d Hd Hl. destruct (Hsrc d Hd Hl) as [s Es].
    exists (Bare (KStr s)). rewrite Es. split; [reflexivity|].
    apply HKf. apply keys_of_In.
    destruct (Hcovr d Hd Hl) as (ip & Hip & Hk).
    exists ip. split; [exact Hip|].
    rewrite Forall_forall in Hstr. destruct (Hstr ip Hip) as [s' ->].
    rewrite Es in Hk. cbn in Hk. injection Hk as ->. reflexivity. }
  destruct r as [out n]. rewrite Hitems in Hu, Hf |- *.
  rewrite (sync_once_write _GEOIP_DB_PATH _LOCAL_PATH set_order
             _ _ _ _ _ _ _ _ Hu Hp1 Hf).
  destruct (encodable (VList out)); cbn [fst snd trace].
  - split; [|discriminate]. rewrite Ht2.
    unfold queries in *. rewrite filter_app, length_app. simpl. lia.
  - split; [|congruence]. rewrite Ht2. exact Hq1.
Qed.

End Dedup.

(** ** The further properties on sample inputs *)

Section FurtherRuns.

Import Parser SyncDaemon Control Utils.

Lemma analyze_session_scan_witness :
  analyze_session str_lower_ascii Examples.scan_session = ("scan", 1%Z).
Proof.
  apply (analyze_session_scan str_lower_ascii Examples.scan_session);
    reflexivity.
Defined.

Lemma analyze_session_reconnaissance_witness :
  analyze_session str_lower_ascii Examples.shell_session
  = ("reconnaissance", 2%Z).
Proof.
  apply (analyze_session_reconnaissance str_lower_ascii Examples.shell_session).
  - reflexivity.
  - intros l [<-|[<-|[<-|[<-|[]]]]] H; try discriminate H; reflexivity.
Defined.

Lemma analyze_session_mikrotik_witness :
  analyze_session str_lower_ascii Examples.recon_then_miner
  = ("mikrotik-recon", 3%Z).
Proof.
  apply (analyze_session_mikrotik str_lower_ascii
           [Examples.connect; Examples.login_success]
           [Examples.command "2024-05-01T10:00:03" "cd /tmp && wget miner.sh"]
           (Examples.command "2024-05-01T10:00:02" "/ip cloud print")).
  - reflexivity.
  - reflexivity.
  - intros l [<-|[<-|[]]] H; discriminate H.
  - reflexivity.
  - reflexivity.
Defined.

Lemma analyze_session_info_gathering_witness :
  analyze_session str_lower_ascii Examples.sms_session
  = ("info-gathering", 3%Z).
Proof.
  apply (analyze_session_info_gathering str_lower_ascii
           [Examples.connect; Examples.login_success]
           [Examples.command "2024-05-01T10:00:03" "ps -ef | grep '[Mm]iner'"]
           (Examples.command "2024-05-01T10:00:02" "ls -la /var/spool/smsd")).
  - reflexivity.
  - reflexivity.
  - intros l [<-|[<-|[]]] H; discriminate H.
  - reflexivity.
  - reflexivity.
  - reflexivity.
Defined.

Lemma group_lines_session_witness :
  sessions_lookup "a1b2c3" (group_lines Examples.log_lines [])
  = Some [Examples.connect; Examples.login_failed].
Proof.
  refine (group_lines_session "a1b2c3" Examples.log_lines _). discriminate.
Defined.

Lemma resolve_cache_bounded_witness :
  cache_bounded
    (snd (_get_location_for_ip Examples.geoip_path (VStr "203.0.113.7")
            Examples.no_db_state)).
Proof.
  apply (resolve_cache_bounded Examples.geoip_path (VStr "203.0.113.7")
           Examples.no_db_state).
  split; [apply Nat.le_0_l|constructor].
Defined.

Lemma lookup_all_reader_held_witness :
  _geoip_reader
    (snd (lookup_all Examples.geoip_path
            [VStr "203.0.113.7"; VStr "198.51.100.9"] Examples.held_state))
  = Some Examples.country_only_db /\
  probes
    (trace (snd (lookup_all Examples.geoip_path
                   [VStr "203.0.113.7"; VStr "198.51.100.9"]
                   Examples.held_state)))
  = probes (trace Examples.held_state).
Proof.
  apply (lookup_all_reader_held Examples.geoip_path
           [VStr "203.0.113.7"; VStr "198.51.100.9"] Examples.country_only_db
           Examples.held_state).
  reflexivity.
Defined.

Lemma lookup_all_opens_once_witness :
  (opens
     (trace (snd (lookup_all Examples.geoip_path
                    [VStr "203.0.113.7"; VStr "198.51.100.9"]
                    Examples.country_db_state)))
   <= opens (trace Examples.country_db_state)
      + match _geoip_reader Examples.country_db_state with
        | Some _ => 0
        | None => 1
        end)%nat.
Proof.
  apply (lookup_all_opens_once Examples.geoip_path
           [VStr "203.0.113.7"; VStr "198.51.100.9"] Examples.country_only_db
           Examples.country_db_state).
  reflexivity.
Defined.

Lemma resolve_falsy_address_witness :
  exists st',
    _get_location_for_ip Examples.geoip_path (VStr "") Examples.held_state
    = (Ok None, st') /\
    queries (trace st') = queries (trace Examples.held_state).
Proof.
  apply (resolve_falsy_address Examples.geoip_path (VStr "")
           (Bare (KStr "")) Examples.held_state); reflexivity.
Defined.


Lemma sync_once_database_unavailable_witness :
  (encodable (VList (map mark_unknown Examples.fetched)) = true ->
   exists st',
     _sync_once Examples.geoip_path Examples.local_path
       Examples.insertion_order (S3Json (VList Examples.fetched))
       Examples.no_db_state
     = (Ok (count_lacking Examples.fetched), st') /\
     local_events st' =
       Some (JsonDump (VList (map mark_unknown Examples.fetched))) /\
     degraded Examples.geoip_path st') /\
  (encodable (VList (map mark_unknown Examples.fetched)) = false ->
   exists st',
     _sync_once Examples.geoip_path Examples.local_path
       Examples.insertion_order (S3Json (VList Examples.fetched))
       Examples.no_db_state
     = (Raise UnicodeEncodeError, st') /\
     local_events st' = local_events Examples.no_db_state /\
     writes (trace st') = writes (trace Examples.no_db_state) /\
     degraded Examples.geoip_path st') /\
  (encodable (VList Examples.fetched) = true ->
   encodable (VList (map mark_unknown Examples.fetched)) = true) /\
  (forall item k, k <> "country" ->
                  field k (mark_unknown item) = field k item) /\
  (forall d, lacks_location d = true ->
             field "country" (mark_unknown (VDict d)) = VStr "Unknown") /\
  (forall d, lacks_location d = false -> mark_unknown (VDict d) = VDict d).
Proof.
  apply (sync_once_database_unavailable Examples.geoip_path
           Examples.local_path Examples.insertion_order Examples.fetched
           Examples.no_db_state).
  - intros members. apply Permutation_refl.
  - repeat split. apply Forall_nil.
  - discriminate.
  - repeat constructor.
Defined.

(** The two ends of a sync on sample lists: the list of plain text is
    published, and the list whose first record holds a lone surrogate makes
    the write raise, after the lookup, with the local file as it was. *)
Lemma sync_once_surrogate :
  let plain :=
    _sync_once Examples.geoip_path Examples.local_path
      Examples.insertion_order (S3Json (VList Examples.fetched))
      Examples.no_db_state in
  let refused :=
    _sync_once Examples.geoip_path Examples.local_path
      Examples.insertion_order
      (S3Json (VList [VDict Examples.surrogate_event;
                      VDict Examples.located_event]))
      Examples.no_db_state in
  encodable (VList Examples.fetched) = true /\
  fst plain = Ok 1%Z /\
  writes (trace (snd plain)) = 1%nat /\
  encodable (VDict Examples.surrogate_event) = false /\
  fst refused = Raise UnicodeEncodeError /\
  local_events (snd refused) = local_events Examples.no_db_state /\
  writes (trace (snd refused)) = 0%nat /\
  probes (trace (snd refused)) = 1%nat.
Proof. vm_compute. repeat split. Qed.

Lemma sync_once_publishes_witness :
  exists published,
    Forall2 enriched_from Examples.fetched published /\
    (encodable (VList published) = true ->
     exists st',
       _sync_once Examples.geoip_path Examples.local_path
         Examples.insertion_order (S3Json (VList Examples.fetched))
         Examples.country_db_state
       = (Ok (count_lacking Examples.fetched), st') /\
       local_events st' = Some (JsonDump (VList published)) /\
       cache_ok st') /\
    (encodable (VList published) = false ->
     exists st',
       _sync_once Examples.geoip_path Examples.local_path
         Examples.insertion_order (S3Json (VList Examples.fetched))
         Examples.country_db_state
       = (Raise UnicodeEncodeError, st') /\
       local_events st' = local_events Examples.country_db_state /\
       writes (trace st') = writes (trace Examples.country_db_state) /\
       cache_ok st').
Proof.
  apply (sync_once_publishes Examples.geoip_path Examples.local_path
           Examples.insertion_order Examples.fetched
           Examples.country_db_state).
  - intros members. apply Permutation_refl.
  - apply Forall_nil.
  - discriminate.
  - repeat constructor.
Defined.

Lemma sync_once_bad_record_witness :
  exists e,
    _sync_once Examples.geoip_path Examples.local_path Examples.insertion_order
      (S3Json (VList [VDict Examples.pending_event; VInt 5]))
      Examples.no_db_state
    = (Raise e, Examples.no_db_state) /\
    loop_iteration Examples.geoip_path Examples.local_path 60%Z
      Examples.insertion_order
      (S3Json (VList [VDict Examples.pending_event; VInt 5]))
      Examples.no_db_state
    = (Ok tt,
       {| _geoip_reader := _geoip_reader Examples.no_db_state;
          cache := cache Examples.no_db_state;
          geoip_db := geoip_db Examples.no_db_state;
          local_events := local_events Examples.no_db_state;
          trace := trace Examples.no_db_state
                   ++ [Print MsgLoopError; Wait 60%Z] |}).
Proof.
  apply (sync_once_bad_record Examples.geoip_path Examples.local_path 60%Z
           Examples.insertion_order
           [VDict Examples.pending_event; VInt 5] Examples.no_db_state).
  apply Exists_cons_tl, Exists_cons_hd. reflexivity.
Defined.

Lemma unique_ips_distinct_witness :
  NoDup (map hash_key [VStr "203.0.113.7"]) /\
  Forall (fun ip => hashable ip = true /\ truthy ip = true)
    [VStr "203.0.113.7"] /\
  (forall d, In (VDict d) (Examples.fetched ++ Examples.fetched) ->
             lacks_location d = true ->
             exists ip, In ip [VStr "203.0.113.7"]
                        /\ hash_key ip = hash_key (dict_get "src_ip" d)) /\
  (forall ip, In ip [VStr "203.0.113.7"] ->
              exists d, In (VDict d) (Examples.fetched ++ Examples.fetched)
                        /\ lacks_location d = true
                        /\ dict_get "src_ip" d = ip).
Proof.
  apply (unique_ips_distinct (Examples.fetched ++ Examples.fetched)
           [VStr "203.0.113.7"]).
  reflexivity.
Defined.


Lemma lookup_after_stop_witness :
  let st := mem (stop_sync_daemon Examples.started_process) in
  (forall v,
     cache_find (Bare (KStr "203.0.113.7"))
       (cache (mem Examples.started_process)) = Some v ->
     fst (_get_location_for_ip Examples.geoip_path (VStr "203.0.113.7") st)
     = Ok v /\
     trace (snd (_get_location_for_ip Examples.geoip_path
                   (VStr "203.0.113.7") st))
     = trace (mem Examples.started_process)) /\
  (cache_find (Bare (KStr "203.0.113.7"))
     (cache (mem Examples.started_process)) = None ->
   opens (trace (snd (_get_location_for_ip Examples.geoip_path
                        (VStr "203.0.113.7") st)))
   = S (opens (trace (mem Examples.started_process))) /\
   _geoip_reader (snd (_get_location_for_ip Examples.geoip_path
                         (VStr "203.0.113.7") st))
   = Some Examples.country_only_db).
Proof.
  apply (lookup_after_stop Examples.geoip_path Examples.started_process
           (VStr "203.0.113.7") (Bare (KStr "203.0.113.7"))
           Examples.country_only_db); reflexivity.
Defined.

Lemma get_flag_emoji_letters_witness :
  get_flag_emoji ascii_upper (Some [117; 115]%Z)
  = Flag [base + letter_index 117; base + letter_index 115]%Z /\
  (127462 <= base + letter_index 117 <= 127487)%Z /\
  (127462 <= base + letter_index 115 <= 127487)%Z.
Proof.
  apply (get_flag_emoji_letters ascii_upper (fun c _ => eq_refl) 117%Z 115%Z);
    reflexivity.
Defined.

Lemma get_flag_emoji_round_trip_witness :
  exists s,
    get_flag_emoji ascii_upper (Some [107; 114]%Z) = Flag s /\
    letters_of_flag s = Some (ascii_upper 107 ++ ascii_upper 114).
Proof.
  apply (get_flag_emoji_round_trip ascii_upper (fun c _ => eq_refl)
           107%Z 114%Z); reflexivity.
Defined.

Lemma get_flag_emoji_white_witness :
  get_flag_emoji ascii_upper (Some [85; 49]%Z) = Flag white_flag <->
  ~ exists a b, [85; 49]%Z = [a; b] /\ is_letter a = true
                /\ is_letter b = true.
Proof.
  apply (get_flag_emoji_white ascii_upper (fun c _ => eq_refl) [85; 49]%Z).
  repeat (constructor; [lia|]). constructor.
Defined.

Lemma sync_once_queries_once_witness :
  (queries (trace (snd (_sync_once Examples.geoip_path Examples.local_path
                          Examples.insertion_order
                          (S3Json (VList (Examples.fetched ++ Examples.fetched)))
                          Examples.country_db_state)))
   <= queries (trace Examples.country_db_state)
      + List.length [VStr "203.0.113.7"])%nat /\
  (forall e,
     fst (_sync_once Examples.geoip_path Examples.local_path
            Examples.insertion_order
            (S3Json (VList (Examples.fetched ++ Examples.fetched)))
            Examples.country_db_state) = Raise e ->
     e = UnicodeEncodeError).
Proof.
  apply (sync_once_queries_once Examples.geoip_path Examples.local_path
           Examples.insertion_order (Examples.fetched ++ Examples.fetched)
           [VStr "203.0.113.7"] Examples.country_db_state).
  - intros l. apply Permutation_refl.
  - repeat constructor.
  - reflexivity.
  - unfold maxsize. simpl. lia.
Defined.

End FurtherRuns.
